(** * IndexedDBAnalyzer: schema inference and cardinality analysis

    A shallow embedding of [tools/analyzers/indexeddb.py] and the properties
    of its three methods [analyze], [_infer_schema] and
    [_analyze_cardinality].

    Records are Python dicts used as maps from field names to JSON-like
    values: [gmap string value].  The sets built by [set(str(v) ...)] are
    [gset string].  The floats the analyzer computes ([int / int] and
    [float * int]) are modelled by their exact rational values together with
    IEEE 754 binary64 round-to-nearest-even. *)

From Stdlib Require Import ZArith QArith Qpower Qround Qabs Lqa Lia SpecFloat.
From Stdlib Require Import String Ascii List.
From stdpp Require Import gmap strings list fin_maps pretty.

Set Warnings "-register-all,-clear-no-such-hyp".

Close Scope Q_scope.
Local Open Scope Z_scope.
Local Open Scope string_scope.

(** ** Python values *)

Module Py.

(** The values a record can hold.  A character of a [string] stands for one
    code point (the range 0..255), so that [String.length] is Python's [len].

    - [VFloat r]: a float, given by its [repr] [r] (the shortest decimal
      string that reads back as the same double).  The analyzer looks at a
      data float only through [isinstance] and [str].
    - [VDict items]: a nested object; its items are kept in insertion order
      because [str] renders them in that order.
    - [VOther tyname s r]: an object of any other class (one that does not
      derive from the classes above), given by what the analyzer can
      observe of it: [type(v).__name__], [str(v)] and [repr(v)]. *)
Inductive value : Type :=
  | VNone
  | VBool (b : bool)
  | VInt (n : Z)
  | VFloat (r : string)
  | VStr (s : string)
  | VList (l : list value)
  | VDict (items : list (string * value))
  | VOther (tyname s r : string).

(** [value is None] *)
Definition is_None (v : value) : bool :=
  match v with VNone => true | _ => false end.

(** [isinstance(value, bool)] *)
Definition isinstance_bool (v : value) : bool :=
  match v with VBool _ => true | _ => false end.

(** [isinstance(value, int)]: [bool] is a subclass of [int], so this holds
    of [True] and [False] as well. *)
Definition isinstance_int (v : value) : bool :=
  match v with VBool _ | VInt _ => true | _ => false end.

(** [isinstance(value, str)] *)
Definition isinstance_str (v : value) : bool :=
  match v with VStr _ => true | _ => false end.

(** [isinstance(value, list)] *)
Definition isinstance_list (v : value) : bool :=
  match v with VList _ => true | _ => false end.

(** [isinstance(value, dict)] *)
Definition isinstance_dict (v : value) : bool :=
  match v with VDict _ => true | _ => false end.

(** [type(value).__name__] *)
Definition type_name (v : value) : string :=
  match v with
  | VNone => "NoneType"
  | VBool _ => "bool"
  | VInt _ => "int"
  | VFloat _ => "float"
  | VStr _ => "str"
  | VList _ => "list"
  | VDict _ => "dict"
  | VOther tyname _ _ => tyname
  end.

(** *** [repr] of a string *)

Definition hex_digit (n : N) : ascii :=
  ascii_of_N (if (n <? 10)%N then 48 + n else 87 + n)%N.

(** One character inside the quotes [quote]: backslash and the quote are
    escaped, tab, newline and carriage return get their letters, and the
    other non-printable code points below 256 are written [\xhh]. *)
Definition repr_char (quote c : ascii) : string :=
  let n := N_of_ascii c in
  if (Ascii.eqb c quote || Ascii.eqb c "\")%bool
  then String "\" (String c "")
  else if (n =? 9)%N then "\t"
  else if (n =? 10)%N then "\n"
  else if (n =? 13)%N then "\r"
  else if ((n <? 32) || ((127 <=? n) && (n <=? 160)) || (n =? 173))%N%bool
  then String "\" (String "x"
         (String (hex_digit (n / 16)) (String (hex_digit (n mod 16)) "")))
  else String c "".

(** The double quote character. *)
Definition dquote : ascii := Eval cbv in ascii_of_N 34.

Fixpoint string_mem (c : ascii) (s : string) : bool :=
  match s with
  | EmptyString => false
  | String c' s' => (Ascii.eqb c c' || string_mem c s')%bool
  end.

Fixpoint repr_chars (quote : ascii) (s : string) : string :=
  match s with
  | EmptyString => ""
  | String c s' => repr_char quote c +:+ repr_chars quote s'
  end.

(** [repr(s)] for a string [s]: single quotes, unless [s] holds a single
    quote and no double quote. *)
Definition repr_str (s : string) : string :=
  let quote : ascii :=
    if (string_mem "'" s && negb (string_mem dquote s))%bool
    then dquote else "'"%char in
  String quote (repr_chars quote s +:+ String quote "").

(** *** [str] and [repr] of a value *)

(** [", ".join(parts)] *)
Definition join_comma (parts : list string) : string :=
  String.concat ", " parts.

Fixpoint py_repr (v : value) : string :=
  match v with
  | VNone => "None"
  | VBool true => "True"
  | VBool false => "False"
  | VInt n => pretty n
  | VFloat r => r
  | VStr s => repr_str s
  | VList l => "[" +:+ join_comma (map py_repr l) +:+ "]"
  | VDict items =>
      "{" +:+ join_comma
                (map (fun kv => match kv with
                                | (k, x) => repr_str k +:+ ": " +:+ py_repr x
                                end) items) +:+ "}"
  | VOther _ _ r => r
  end.

(** [str(v)]: the string itself for a string, [repr] for the built-in
    containers and scalars. *)
Definition py_str (v : value) : string :=
  match v with
  | VStr s => s
  | VOther _ s _ => s
  | _ => py_repr v
  end.

(** [len(s)] of a string *)
Definition py_len (s : string) : Z := Z.of_nat (String.length s).

(** [sys.maxsize] on a 64-bit build: no list is longer. *)
Definition sys_maxsize : Z := 2 ^ 63 - 1.

End Py.

(** ** Floats: binary64 with round-to-nearest-even *)

Module Float.

Local Open Scope Q_scope.

(** A finite float is given by its exact value, a rational on the binary64
    grid.  Every float the analyzer computes is a quotient of two counts or
    lengths, or such a quotient times 100, far below the overflow threshold
    [2^1024]; infinities and NaN do not arise and are not represented. *)
Definition float : Type := Q.

(** The nearest integer, ties to the even neighbour. *)
Definition round_half_even (x : Q) : Z :=
  let f := Qfloor x in
  match Qcompare (x - inject_Z f) (1 # 2) with
  | Lt => f
  | Gt => (f + 1)%Z
  | Eq => if Z.even f then f else (f + 1)%Z
  end.

(** [2^e] for any integer [e]. *)
Definition pow2 (e : Z) : Q := Qpower 2 e.

(** [floor (log2 x)] for [x > 0]. *)
Definition ilog2 (x : Q) : Z :=
  let a := (Z.log2 (Qnum x) - Z.log2 (Zpos (Qden x)))%Z in
  if Qle_bool (pow2 a) x then a else (a - 1)%Z.

(** binary64: 53 bits of precision, least exponent of the grid -1074. *)
Definition prec : Z := 53.
Definition emin : Z := -1074.

(** The exponent of the grid around [x]: the unit in the last place of [x]
    is [2^(ulp_exp x)]; it stops shrinking in the subnormal range. *)
Definition ulp_exp (x : Q) : Z :=
  Z.max (ilog2 (Qabs x) - (prec - 1)) emin.

(** Round to the nearest double, ties to even: the rounding of every
    IEEE 754 operation in the default mode. *)
Definition RN (x : Q) : float :=
  if Qeq_bool x 0 then 0
  else
    let e := ulp_exp x in
    Qred (inject_Z (round_half_even (x / pow2 e)) * pow2 e).

(** [a / b] on two ints: CPython's true division of ints is correctly
    rounded.  It raises ZeroDivisionError for [b = 0]; every call below is
    behind the guard that makes the divisor a positive length. *)
Definition py_truediv (a b : Z) : float :=
  RN (inject_Z a / inject_Z b).

(** [float(n)] *)
Definition float_of_int (n : Z) : float := RN (inject_Z n).

(** [x * n] for a float [x] and an int [n]: [n] is converted, then the
    product is rounded. *)
Definition float_mul_int (x : float) (n : Z) : float :=
  RN (x * float_of_int n).

(** [f"{x:.0f}"]: the decimal digits of [x] rounded half-even to an
    integer; a negative [x] that rounds to zero prints as [-0]. *)
Definition format_0f (x : float) : string :=
  let n := round_half_even x in
  if (Qle_bool 0 x || negb (n =? 0)%Z)%bool then pretty n
  else "-0".

End Float.

(** ** The same operations in the Standard Library's model of IEEE 754 *)

Module Binary64.

Import Float.

(** The rational value of a finite [spec_float]. *)
Definition SF2Q (x : spec_float) : option Q :=
  match x with
  | S754_zero _ => Some 0%Q
  | S754_finite s m e =>
      Some (Qred ((if s then -1 else 1) * inject_Z (Z.pos m) * pow2 e))%Q
  | _ => None
  end.

(** The double nearest to an integer. *)
Definition SF_of_int (n : Z) : spec_float :=
  binary_normalize 53 1024 n 0 false.

(** [c / N] and [c / N * 100] computed by [SFdiv] and [SFmul] have the
    values [py_truediv] and [float_mul_int] give them. *)
Definition agree (c N : Z) : bool :=
  let p := SFdiv 53 1024 (SF_of_int c) (SF_of_int N) in
  let q := SFmul 53 1024 p (SF_of_int 100) in
  match SF2Q p, SF2Q q with
  | Some p', Some q' =>
      Qeq_bool p' (py_truediv c N)
      && Qeq_bool q' (float_mul_int (py_truediv c N) 100)
  | _, _ => false
  end.

(** [agree c N] for every [1 <= N <= K] and [0 <= c <= N]. *)
Definition agree_upto (K : nat) : bool :=
  forallb (fun N => forallb (fun c => agree (Z.of_nat c) (Z.of_nat N))
                            (seq 0 (S N)))
          (seq 1 K).

End Binary64.

(** ** The analyzer *)

Module Analyzer.

Import Py Float.

(** A record of a store: [Dict[str, Any]]. *)
Abbreviation record := (gmap string value).

(** The entry of a field in the inferred schema: the keys ['type'] and
    ['presence'], and for strings ['max_length'] and ['avg_length']. *)
Record field_schema : Type := {
  type : string;
  presence : string;
  max_length : option Z;
  avg_length : option float;
}.

(** The entry of a field in the cardinality analysis. *)
Record field_cardinality : Type := {
  unique_values : Z;
  cardinality_ratio : float;
}.

(** A store descriptor of the snapshot: a dict read through the keys
    ['name'], ['count'], ['keyPath'], ['indexes'] and ['records'].  An absent
    key is [None]; a name, when present, is a string. *)
Record store : Type := {
  store_name : option string;
  store_count : option value;
  store_keyPath : option value;
  store_indexes : option value;
  store_records : option (list record);
}.

(** A database descriptor of the snapshot: a dict read through the keys
    ['name'], ['version'] and ['stores']. *)
Record database : Type := {
  db_name : option string;
  db_version : option value;
  db_stores : option (list store);
}.

(** The analysis of one store. *)
Record store_result : Type := {
  record_count : value;
  key_path : value;
  indexes : value;
  schema : gmap string field_schema;
  cardinality : gmap string field_cardinality;
}.

(** The analysis of one database.  The key of a store is its name, or
    Python's [None] (here [None : option string]) when it has none. *)
Record db_result : Type := {
  version : value;
  stores : gmap (option string) store_result;
}.

(** [len(l)] *)
Definition len {A} (l : list A) : Z := Z.of_nat (length l).

(** [key in r] *)
Definition contains (key : string) (r : record) : bool :=
  match r !! key with Some _ => true | None => false end.

(** [r.get(key, dflt)] *)
Definition get (r : record) (key : string) (dflt : value) : value :=
  match r !! key with Some v => v | None => dflt end.

(** [sum(l)] *)
Definition sum (l : list Z) : Z := foldl Z.add 0%Z l.

(** [max(l)] of a non-empty list [x :: l] *)
Definition max (x : Z) (l : list Z) : Z := foldl Z.max x l.

(** The chain of lines 46-59: the type tag of a first-record value. *)
Definition field_type_of (value : value) : string :=
  if is_None value then "null"
  else if isinstance_bool value then "boolean"
  else if isinstance_int value then "number"
  else if isinstance_str value then "string"
  else if isinstance_list value then "array"
  else if isinstance_dict value then "object"
  else type_name value.

(** The body of the loop of [_infer_schema] for one item [(key, value)]
    of the first record: the entry stored at [schema[key]]. *)
Definition schema_entry (records : list record) (key : string) (value : value)
  : field_schema :=
  let field_type := field_type_of value in
  let entry :=
    {| type := field_type;
       presence :=
         format_0f
           (float_mul_int
              (py_truediv
                 (sum (map (fun _ => 1%Z) (List.filter (contains key) records)))
                 (len records))
              100) +:+ "%";
       max_length := None;
       avg_length := None |} in
  if String.eqb field_type "string" then
    let lengths :=
      map (fun r => py_len (py_str (get r key (VStr ""))))
          (List.filter (contains key) records) in
    match lengths with
    | [] => entry
    | l0 :: ls =>
        {| type := type entry;
           presence := presence entry;
           max_length := Some (max l0 ls);
           avg_length := Some (py_truediv (sum lengths) (len lengths)) |}
    end
  else entry.

Definition _infer_schema (records : list record) : gmap string field_schema :=
  match records with
  | [] => ∅
  | first :: _ =>
      map_fold (fun key value schema =>
                  <[key := schema_entry records key value]> schema)
               ∅ first
  end.

(** The body of the loop of [_analyze_cardinality] for one key. *)
Definition cardinality_entry (records : list record) (key : string)
  : field_cardinality :=
  let values :=
    map (fun r => get r key VNone) (List.filter (contains key) records) in
  let unique :=
    Z.of_nat (size (list_to_set (map py_str values) : gset string)) in
  {| unique_values := unique;
     cardinality_ratio := py_truediv unique (len records) |}.

Definition _analyze_cardinality (records : list record)
  : gmap string field_cardinality :=
  match records with
  | [] => ∅
  | first :: _ =>
      map_fold (fun key _ result =>
                  <[key := cardinality_entry records key]> result)
               ∅ first
  end.

(** The dict stored at [result[db_name]['stores'][store_name]]. *)
Definition store_entry (store : store) : store_result :=
  let records := default [] (store_records store) in
  {| record_count := default (VInt (len records)) (store_count store);
     key_path := default VNone (store_keyPath store);
     indexes := default (VList []) (store_indexes store);
     schema := _infer_schema records;
     cardinality := _analyze_cardinality records |}.

(** [__init__]: [self.data = data.get('indexedDB', [])], from the value
    of the key ['indexedDB'] when the snapshot has one. *)
Definition init (indexedDB : option (list database)) : list database :=
  default [] indexedDB.

(** [analyze], on [self.data].  [result] is threaded through both loops;
    the inner assignment updates the dict at [result[db_name]] in place. *)
Definition analyze (data : list database) : gmap string db_result :=
  foldl
    (fun result db =>
       let db_name := default "unknown" (db_name db) in
       let result :=
         <[db_name := {| version := default VNone (db_version db);
                         stores := ∅ |}]> result in
       foldl
         (fun result store =>
            let store_name := store_name store in
            alter (fun entry =>
                     {| version := version entry;
                        stores := <[store_name := store_entry store]>
                                    (stores entry) |})
                  db_name result)
         result (default [] (db_stores db)))
    ∅ data.

End Analyzer.

(** ** The vocabulary of the specification *)

Module Spec.
Import Py Float Analyzer.

(** The records that contain the field [k]. *)
Definition records_with (k : string) (records : list (gmap string value))
  : list (gmap string value) :=
  filter (λ r : gmap string value, is_Some (r !! k)) records.

(** The values of [k], taken from exactly the records that contain it. *)
Definition values_of (k : string) (records : list (gmap string value))
  : list value :=
  omap (λ r : gmap string value, r !! k) records.

(** The number of distinct elements of a list. *)
Definition distinct_count (l : list string) : Z :=
  Z.of_nat (length (remove_dups l)).

(** The key set of the first record; empty when there is no record. *)
Definition first_keys (records : list (gmap string value)) : gset string :=
  match records with
  | [] => ∅
  | first :: _ => dom first
  end.

(** [for a in l: m[key(a)] = val(a)]: a loop that stores one entry per
    element of a list. *)
Definition insert_loop {K : Type} `{Countable K} {V A : Type}
    (key : A → K) (val : A → V) (m : gmap K V) (l : list A) : gmap K V :=
  foldl (λ m a, <[key a := val a]> m) m l.

(** The key a database is stored under: its name, ["unknown"] without one. *)
Definition db_key (db : database) : string :=
  default "unknown" (db_name db).

(** The stores of a database, [[]] when the key is absent. *)
Definition stores_list (db : database) : list store :=
  default [] (db_stores db).

(** The entry derived from one database: its version and one entry per
    store, stored under the store's name in the order of the stores. *)
Definition db_entry (db : database) : db_result :=
  {| version := default VNone (db_version db);
     stores := insert_loop store_name store_entry ∅ (stores_list db) |}.

End Spec.

(** ** Sample data *)

Module Samples.

Import Py.

(** Four records, the last one without a name. *)
Definition scenario : list (gmap string value) :=
  [ {[ "id" := VInt 1; "name" := VStr "ann" ]};
    {[ "id" := VInt 2; "name" := VStr "bob" ]};
    {[ "id" := VInt 1; "name" := VStr "ann" ]};
    {[ "id" := VInt 3 ]} ].

(** Forty records, twenty-three of them with the field ["k"]: the exact
    percentage 57.5 is halfway between two integers. *)
Definition halfway : list (gmap string value) :=
  (repeat ({[ "k" := VInt 1 ]} : gmap string value) 23 ++ repeat ∅ 17)%list.

End Samples.

(** * Properties *)

(** ** Rounding to binary64 *)

Section FloatFacts.
Import Float.
Local Open Scope Q_scope.

Lemma pow2_pos e : 0 < pow2 e.
Proof. unfold pow2. apply Qpower_0_lt. reflexivity. Qed.

Lemma pow2_add a b : pow2 (a + b) == pow2 a * pow2 b.
Proof. unfold pow2. apply Qpower_plus. discriminate. Qed.

Lemma pow2_succ e : pow2 (e + 1) == 2 * pow2 e.
Proof. rewrite pow2_add. unfold pow2 at 2. simpl. ring. Qed.

Lemma pow2_pred e : 2 * pow2 (e - 1) == pow2 e.
Proof.
  rewrite <- pow2_succ. replace (e - 1 + 1)%Z with e by lia. reflexivity.
Qed.

Lemma pow2_Z n : (0 <= n)%Z -> pow2 n == inject_Z (2 ^ n).
Proof. intros Hn. unfold pow2. rewrite Zpower_Qpower by assumption. reflexivity. Qed.

Lemma pow2_le a b : (a <= b)%Z -> pow2 a <= pow2 b.
Proof.
  intros Hab. unfold pow2. apply Qpower_le_compat_l; [assumption|]. 
  unfold Qle; simpl; lia.
Qed.


Lemma round_half_even_spec x :
  inject_Z (round_half_even x) - x <= 1 # 2 /\
  x - inject_Z (round_half_even x) <= 1 # 2.
Proof.
  unfold round_half_even.
  pose proof (Qfloor_le x) as Hlo. pose proof (Qlt_floor x) as Hhi.
  rewrite inject_Z_plus in Hhi. change (inject_Z 1) with 1 in Hhi.
  destruct (Qcompare_spec (x - inject_Z (Qfloor x)) (1 # 2)) as [He|Hl|Hg].
  - destruct (Z.even (Qfloor x)); rewrite ?inject_Z_plus;
      change (inject_Z 1) with 1; lra.
  - lra.
  - rewrite inject_Z_plus. change (inject_Z 1) with 1. lra.
Qed.

(** An integer bound on [x] bounds its rounding. *)
Lemma round_half_even_le x (n : Z) :
  x <= inject_Z n -> (round_half_even x <= n)%Z.
Proof.
  intros Hx. destruct (round_half_even_spec x) as [H1 _].
  assert (Hlt : inject_Z (round_half_even x) < inject_Z n + 1) by lra.
  change 1 with (inject_Z 1) in Hlt.
  rewrite <- inject_Z_plus in Hlt. rewrite <- Zlt_Qlt in Hlt. lia.
Qed.

Lemma round_half_even_ge x (n : Z) :
  inject_Z n <= x -> (n <= round_half_even x)%Z.
Proof.
  intros Hx. destruct (round_half_even_spec x) as [_ H2].
  assert (Hlt : inject_Z n < inject_Z (round_half_even x) + 1) by lra.
  change 1 with (inject_Z 1) in Hlt.
  rewrite <- inject_Z_plus in Hlt. rewrite <- Zlt_Qlt in Hlt. lia.
Qed.

(** A quotient of two numbers, each within a factor two of a power of two. *)
Lemma quotient_binade (x qn qd p p1 p2 : Q) :
  0 < p2 -> 0 < p -> 0 < x ->
  p1 <= qn < 2 * p1 -> p2 <= qd < 2 * p2 ->
  x * qd == qn -> p * p2 == p1 ->
  p < 2 * x /\ x < 2 * p.
Proof.
  intros Hp2 Hp Hx [Hn1 Hn2] [Hd1 Hd2] Hxd Hpp. split.
  - apply Qnot_le_lt. intros Hc.
    assert (0 <= (p - 2 * x) * qd) by (apply Qmult_le_0_compat; lra).
    assert (0 < p * (2 * p2 - qd)) by (apply Qmult_lt_0_compat; lra).
    assert ((p - 2 * x) * qd == p * qd - 2 * (x * qd)) by ring.
    assert (p * (2 * p2 - qd) == 2 * (p * p2) - p * qd) by ring.
    lra.
  - apply Qnot_le_lt. intros Hc.
    assert (0 <= (x - 2 * p) * qd) by (apply Qmult_le_0_compat; lra).
    assert (0 <= p * (qd - p2)) by (apply Qmult_le_0_compat; lra).
    assert ((x - 2 * p) * qd == x * qd - 2 * (p * qd)) by ring.
    assert (p * (qd - p2) == p * qd - p * p2) by ring.
    lra.
Qed.

Lemma ilog2_spec x :
  0 < x -> pow2 (ilog2 x) <= x /\ x < pow2 (ilog2 x + 1).
Proof.
  intros Hx. destruct x as [n d].
  assert (Hn : (0 < n)%Z) by (unfold Qlt in Hx; simpl in Hx; lia).
  unfold ilog2. cbn [Qnum Qden].
  set (a1 := Z.log2 n). set (a2 := Z.log2 (Z.pos d)).
  assert (H1 : (2 ^ a1 <= n < 2 ^ Z.succ a1)%Z) by (apply Z.log2_spec; lia).
  assert (H2 : (2 ^ a2 <= Z.pos d < 2 ^ Z.succ a2)%Z) by (apply Z.log2_spec; lia).
  assert (Ha1 : (0 <= a1)%Z) by apply Z.log2_nonneg.
  assert (Ha2 : (0 <= a2)%Z) by apply Z.log2_nonneg.
  assert (B1 : pow2 a1 <= inject_Z n < 2 * pow2 a1).
  { rewrite <- pow2_succ, !pow2_Z by lia. rewrite <- Zle_Qle, <- Zlt_Qlt.
    unfold Z.succ in H1. lia. }
  assert (B2 : pow2 a2 <= inject_Z (Z.pos d) < 2 * pow2 a2).
  { rewrite <- pow2_succ, !pow2_Z by lia. rewrite <- Zle_Qle, <- Zlt_Qlt.
    unfold Z.succ in H2. lia. }
  assert (Hsplit : pow2 (a1 - a2) * pow2 a2 == pow2 a1).
  { rewrite <- pow2_add. replace (a1 - a2 + a2)%Z with a1 by lia. reflexivity. }
  assert (Hxd : (n # d) * inject_Z (Z.pos d) == inject_Z n).
  { rewrite (Qmake_Qdiv n d). field. intros Hc. 
    assert (0 < inject_Z (Z.pos d)) by (unfold Qlt; simpl; lia). lra. }
  destruct (quotient_binade _ _ _ _ _ _ (pow2_pos a2) (pow2_pos (a1 - a2))
              Hx B1 B2 Hxd Hsplit) as [Hdn Hup].
  destruct (Qle_bool (pow2 (a1 - a2)) (n # d)) eqn:Hb.
  - apply Qle_bool_iff in Hb. split; [assumption|]. rewrite pow2_succ. assumption.
  - assert (Hlt : n # d < pow2 (a1 - a2)).
    { apply Qnot_le_lt. intros Hc. apply Qle_bool_iff in Hc. congruence. }
    replace (a1 - a2 - 1 + 1)%Z with (a1 - a2)%Z by lia.
    pose proof (pow2_pred (a1 - a2)). split; lra.
Qed.


Lemma Qabs_pos_eq x : 0 <= x -> Qabs x = x.
Proof.
  destruct x as [n d]. unfold Qle. simpl. intros Hn.
  rewrite Z.abs_eq by lia. reflexivity.
Qed.

Lemma pow2_lt_inv a b : pow2 a < pow2 b -> (a < b)%Z.
Proof.
  intros H. apply (Qpower_lt_compat_l_inv 2); [exact H | reflexivity].
Qed.

(** [RN x] is the multiple of the unit in the last place nearest to [x]. *)
Lemma RN_unfold x :
  ~ x == 0 ->
  RN x == inject_Z (round_half_even (x / pow2 (ulp_exp x))) * pow2 (ulp_exp x).
Proof.
  intros Hx. unfold RN. destruct (Qeq_bool x 0) eqn:Hb.
  - apply Qeq_bool_iff in Hb. contradiction.
  - apply Qred_correct.
Qed.

(** The error of a rounding is at most half a unit in the last place. *)
Lemma RN_abs_error x :
  ~ x == 0 ->
  2 * (RN x - x) <= pow2 (ulp_exp x) /\ 2 * (x - RN x) <= pow2 (ulp_exp x).
Proof.
  intros Hx. rewrite (RN_unfold x Hx).
  pose proof (pow2_pos (ulp_exp x)) as Hp.
  set (e := pow2 (ulp_exp x)) in *.
  destruct (round_half_even_spec (x / e)) as [H1 H2].
  set (m := inject_Z (round_half_even (x / e))) in *.
  assert (Hm1 : (m - x / e) * e <= (1 # 2) * e) by (apply Qmult_le_compat_r; lra).
  assert (Hm2 : (x / e - m) * e <= (1 # 2) * e) by (apply Qmult_le_compat_r; lra).
  assert (E1 : (m - x / e) * e == m * e - x) by (field; lra).
  assert (E2 : (x / e - m) * e == x - m * e) by (field; lra).
  rewrite E1 in Hm1. rewrite E2 in Hm2. clear E1 E2 H1 H2.
  clearbody m e. lra.
Qed.

(** Scaling by the unit in the last place, when it is at most one. *)
Lemma scale_to_grid e :
  (e <= 0)%Z ->
  pow2 e * inject_Z (2 ^ (- e)) == 1 /\
  forall x, x / pow2 e == x * inject_Z (2 ^ (- e)).
Proof.
  intros He. pose proof (pow2_pos e) as Hp.
  assert (Hinv : pow2 e * inject_Z (2 ^ (- e)) == 1).
  { rewrite <- pow2_Z by lia. rewrite <- pow2_add.
    replace (e + - e)%Z with 0%Z by lia. reflexivity. }
  split; [assumption|]. intros x.
  transitivity (x / pow2 e * (pow2 e * inject_Z (2 ^ (- e)))).
  - rewrite Hinv. ring.
  - field. lra.
Qed.

(** Bounds of [x] by integers carry over to [RN x] below [2^53], where the
    grid contains every integer. *)
Lemma RN_le_int x (n : Z) :
  ~ x == 0 -> (ulp_exp x <= 0)%Z -> x <= inject_Z n -> RN x <= inject_Z n.
Proof.
  intros Hx He Hn. rewrite (RN_unfold x Hx).
  destruct (scale_to_grid _ He) as [Hinv Hdiv].
  pose proof (pow2_pos (ulp_exp x)) as Hp.
  set (e := pow2 (ulp_exp x)) in *. set (k := (2 ^ (- ulp_exp x))%Z) in *.
  assert (Hk : 0 <= inject_Z k).
  { change 0 with (inject_Z 0). rewrite <- Zle_Qle. apply Z.pow_nonneg. lia. }
  assert (Hb : x / e <= inject_Z (n * k)).
  { rewrite Hdiv, inject_Z_mult. apply Qmult_le_compat_r; assumption. }
  apply round_half_even_le in Hb. rewrite Zle_Qle, inject_Z_mult in Hb.
  set (m := inject_Z (round_half_even (x / e))) in *.
  assert (Hm : m * e <= inject_Z n * inject_Z k * e)
    by (apply Qmult_le_compat_r; lra).
  assert (Hr : inject_Z n * inject_Z k * e == inject_Z n * (e * inject_Z k))
    by ring.
  rewrite Hr, Hinv in Hm. clearbody m e. lra.
Qed.

Lemma RN_ge_int x (n : Z) :
  ~ x == 0 -> (ulp_exp x <= 0)%Z -> inject_Z n <= x -> inject_Z n <= RN x.
Proof.
  intros Hx He Hn. rewrite (RN_unfold x Hx).
  destruct (scale_to_grid _ He) as [Hinv Hdiv].
  pose proof (pow2_pos (ulp_exp x)) as Hp.
  set (e := pow2 (ulp_exp x)) in *. set (k := (2 ^ (- ulp_exp x))%Z) in *.
  assert (Hk : 0 <= inject_Z k).
  { change 0 with (inject_Z 0). rewrite <- Zle_Qle. apply Z.pow_nonneg. lia. }
  assert (Hb : inject_Z (n * k) <= x / e).
  { rewrite Hdiv, inject_Z_mult. apply Qmult_le_compat_r; assumption. }
  apply round_half_even_ge in Hb. rewrite Zle_Qle, inject_Z_mult in Hb.
  set (m := inject_Z (round_half_even (x / e))) in *.
  assert (Hm : inject_Z n * inject_Z k * e <= m * e)
    by (apply Qmult_le_compat_r; lra).
  assert (Hr : inject_Z n * inject_Z k * e == inject_Z n * (e * inject_Z k))
    by ring.
  rewrite Hr, Hinv in Hm. clearbody m e. lra.
Qed.


Lemma ilog2_lt x b : 0 < x -> x < pow2 b -> (ilog2 x < b)%Z.
Proof.
  intros Hx Hb. destruct (ilog2_spec x Hx) as [Hlo _].
  apply pow2_lt_inv. lra.
Qed.

Lemma ilog2_ge x a : 0 < x -> pow2 a <= x -> (a <= ilog2 x)%Z.
Proof.
  intros Hx Ha. destruct (ilog2_spec x Hx) as [_ Hhi].
  assert (a < ilog2 x + 1)%Z by (apply pow2_lt_inv; lra). lia.
Qed.

Lemma ulp_exp_below x b :
  0 < x -> x < pow2 b -> (emin <= b - prec)%Z -> (ulp_exp x <= b - prec)%Z.
Proof.
  intros Hx Hb He. unfold ulp_exp. rewrite (Qabs_pos_eq x) by lra.
  pose proof (ilog2_lt x b Hx Hb). unfold prec in *. lia.
Qed.

(** Below [2^b] a rounding errs by at most [2^(b - 54)]. *)
Lemma RN_error_below x b :
  0 < x -> x < pow2 b -> (emin <= b - prec)%Z ->
  2 * (RN x - x) <= pow2 (b - prec) /\ 2 * (x - RN x) <= pow2 (b - prec).
Proof.
  intros Hx Hb He.
  assert (Hx0 : ~ x == 0) by lra.
  destruct (RN_abs_error x Hx0) as [H1 H2].
  pose proof (pow2_le _ _ (ulp_exp_below x b Hx Hb He)). lra.
Qed.

(** A rounding is at least one unit in the last place, so a positive
    number at or above the least subnormal does not round to zero. *)
Lemma RN_ge_ulp x : pow2 emin <= x -> pow2 (ulp_exp x) <= RN x.
Proof.
  intros Hx. pose proof (pow2_pos emin) as Hpe.
  assert (Hx0 : ~ x == 0) by lra. rewrite (RN_unfold x Hx0).
  pose proof (pow2_pos (ulp_exp x)) as Hp.
  assert (Hle : pow2 (ulp_exp x) <= x).
  { unfold ulp_exp. rewrite (Qabs_pos_eq x) by lra.
    destruct (ilog2_spec x) as [Hlo _]; [lra|].
    destruct (Z.max_spec (ilog2 x - (prec - 1)) emin) as [[_ ->]|[_ ->]].
    - assumption.
    - apply Qle_trans with (pow2 (ilog2 x)); [|assumption].
      apply pow2_le. unfold prec. lia. }
  set (e := pow2 (ulp_exp x)) in *.
  assert (Hone : inject_Z 1 <= x / e).
  { apply Qle_shift_div_l; [assumption|]. change (inject_Z 1) with 1. lra. }
  apply round_half_even_ge in Hone. rewrite Zle_Qle in Hone.
  set (m := inject_Z (round_half_even (x / e))) in *.
  assert (Hm : inject_Z 1 * e <= m * e) by (apply Qmult_le_compat_r; lra).
  change (inject_Z 1) with 1 in Hm. clearbody m e. lra.
Qed.

Lemma RN_pos x : pow2 emin <= x -> 0 < RN x.
Proof.
  intros Hx. pose proof (RN_ge_ulp x Hx). pose proof (pow2_pos (ulp_exp x)). lra.
Qed.

Lemma RN_0 x : x == 0 -> RN x = 0.
Proof.
  intros Hx. unfold RN. apply Qeq_bool_iff in Hx. rewrite Hx. reflexivity.
Qed.

(** Roundings of numbers in [[0, n]], [n] an integer below [2^53], stay
    in [[0, n]]. *)
Lemma RN_range x (n : Z) :
  0 <= x -> x <= inject_Z n -> (n < 2 ^ 53)%Z ->
  0 <= RN x /\ RN x <= inject_Z n.
Proof.
  intros H0 Hn Hb.
  destruct (Qeq_dec x 0) as [Hz|Hnz].
  - rewrite (RN_0 x Hz). lra.
  - assert (Hx : 0 < x) by lra.
    assert (He : (ulp_exp x <= 0)%Z).
    { assert (x < pow2 53).
      { rewrite pow2_Z by lia. apply Qle_lt_trans with (inject_Z n); [assumption|].
        rewrite <- Zlt_Qlt. assumption. }
      pose proof (ulp_exp_below x 53 Hx H). unfold prec, emin in *. lia. }
    split.
    + apply (RN_ge_int x 0 Hnz He). assumption.
    + apply (RN_le_int x n Hnz He). assumption.
Qed.


Lemma float_of_int_100 : float_of_int 100 = 100.
Proof. vm_compute. reflexivity. Qed.

Lemma quotient_range (c N : Z) :
  (0 <= c <= N)%Z -> (0 < N)%Z ->
  0 <= inject_Z c / inject_Z N /\ inject_Z c / inject_Z N <= 1.
Proof.
  intros Hc HN.
  assert (HqN : 0 < inject_Z N) by (change 0 with (inject_Z 0); rewrite <- Zlt_Qlt; lia).
  assert (Hqc : 0 <= inject_Z c) by (change 0 with (inject_Z 0); rewrite <- Zle_Qle; lia).
  assert (HcN : inject_Z c <= inject_Z N) by (rewrite <- Zle_Qle; lia).
  split.
  - apply Qle_shift_div_l; lra.
  - apply Qle_shift_div_r; lra.
Qed.

(** [c / N] for a count [c] out of [N] is a float in [[0, 1]]. *)
Lemma py_truediv_range (c N : Z) :
  (0 <= c <= N)%Z -> (0 < N)%Z ->
  0 <= py_truediv c N /\ py_truediv c N <= 1.
Proof.
  intros Hc HN. destruct (quotient_range c N Hc HN) as [H0 H1].
  unfold py_truediv. apply (RN_range _ 1); [assumption|assumption|lia].
Qed.

(** [c / N * 100] is a float in [[0, 100]]. *)
Lemma percentage_range (c N : Z) :
  (0 <= c <= N)%Z -> (0 < N)%Z ->
  0 <= float_mul_int (py_truediv c N) 100 /\
  float_mul_int (py_truediv c N) 100 <= 100.
Proof.
  intros Hc HN. destruct (py_truediv_range c N Hc HN) as [H0 H1].
  unfold float_mul_int. rewrite float_of_int_100.
  apply (RN_range _ 100); [lra| change (inject_Z 100) with 100; lra | lia].
Qed.

(** The error of [c / N * 100] against the exact [100 c / N]. *)
Lemma percentage_error (c N : Z) :
  (0 <= c <= N)%Z -> (0 < N)%Z ->
  let q := float_mul_int (py_truediv c N) 100 in
  let t := 100 * (inject_Z c / inject_Z N) in
  q - t <= 164 * pow2 (-53) /\ t - q <= 164 * pow2 (-53).
Proof.
  intros Hc HN q t.
  destruct (quotient_range c N Hc HN) as [Hx0 Hx1].
  destruct (py_truediv_range c N Hc HN) as [Hp0 Hp1].
  set (x := inject_Z c / inject_Z N) in *.
  assert (Ep : 2 * (py_truediv c N - x) <= pow2 (-52)
               /\ 2 * (x - py_truediv c N) <= pow2 (-52)).
  { destruct (Qeq_dec x 0) as [Hz|Hnz].
    - unfold py_truediv. fold x. rewrite (RN_0 x Hz).
      pose proof (pow2_pos (-52)). lra.
    - unfold py_truediv. fold x.
      apply (RN_error_below x 1); [lra | change (pow2 1) with 2; lra
                                   | unfold emin, prec; lia]. }
  set (p := py_truediv c N) in *.
  assert (Eq : 2 * (q - p * 100) <= pow2 (-46)
               /\ 2 * (p * 100 - q) <= pow2 (-46)).
  { unfold q, float_mul_int. fold p. rewrite float_of_int_100.
    destruct (Qeq_dec (p * 100) 0) as [Hz|Hnz].
    - rewrite (RN_0 _ Hz). pose proof (pow2_pos (-46)). lra.
    - apply (RN_error_below (p * 100) 7);
        [lra | change (pow2 7) with 128; lra | unfold emin, prec; lia]. }
  assert (E52 : pow2 (-52) == 2 * pow2 (-53)) by reflexivity.
  assert (E46 : pow2 (-46) == 128 * pow2 (-53)) by reflexivity.
  unfold t. clearbody q p x. lra.
Qed.


(** The integer printed by [f"{c / N * 100:.0f}"]: between 0 and 100, and
    for lists of up to [2^44] records an integer nearest to the exact
    [100 c / N]. *)
Lemma percentage_rounded (c N : Z) :
  (0 <= c <= N)%Z -> (0 < N)%Z ->
  let n := round_half_even (float_mul_int (py_truediv c N) 100) in
  (0 <= n <= 100)%Z /\
  ((N <= 2 ^ 44)%Z -> (2 * Z.abs (n * N - 100 * c) <= N)%Z).
Proof.
  intros Hc HN n.
  destruct (percentage_range c N Hc HN) as [Hq0 Hq1].
  destruct (percentage_error c N Hc HN) as [He1 He2].
  destruct (round_half_even_spec (float_mul_int (py_truediv c N) 100))
    as [Hr1 Hr2].
  fold n in Hr1, Hr2.
  set (q := float_mul_int (py_truediv c N) 100) in *.
  split.
  - split.
    + apply (round_half_even_ge q 0). assumption.
    + apply (round_half_even_le q 100). assumption.
  - intros Hbig.
    assert (HqN : 0 < inject_Z N)
      by (change 0 with (inject_Z 0); rewrite <- Zlt_Qlt; lia).
    assert (HqN' : inject_Z N <= inject_Z (2 ^ 44)) by (rewrite <- Zle_Qle; lia).
    assert (Ht : 100 * (inject_Z c / inject_Z N) * inject_Z N == 100 * inject_Z c)
      by (field; lra).
    set (t := 100 * (inject_Z c / inject_Z N)) in *.
    assert (Ed : pow2 (-53) * inject_Z (2 ^ 44) == 1 # 512) by reflexivity.
    set (d := pow2 (-53)) in *.
    assert (Hd : 0 <= d) by (apply Qlt_le_weak, pow2_pos).
    assert (HdN : d * inject_Z N <= 1 # 512).
    { rewrite <- Ed. apply Qmult_le_l; [|assumption].
      unfold d. apply pow2_pos. }
    assert (U : (inject_Z n - t - (1 # 2) - 164 * d) * inject_Z N <= 0).
    { assert (0 <= ((1 # 2) + 164 * d - (inject_Z n - t)) * inject_Z N)
        by (apply Qmult_le_0_compat; lra).
      assert (((1 # 2) + 164 * d - (inject_Z n - t)) * inject_Z N
              == - ((inject_Z n - t - (1 # 2) - 164 * d) * inject_Z N)) by ring.
      lra. }
    assert (L : (t - inject_Z n - (1 # 2) - 164 * d) * inject_Z N <= 0).
    { assert (0 <= ((1 # 2) + 164 * d - (t - inject_Z n)) * inject_Z N)
        by (apply Qmult_le_0_compat; lra).
      assert (((1 # 2) + 164 * d - (t - inject_Z n)) * inject_Z N
              == - ((t - inject_Z n - (1 # 2) - 164 * d) * inject_Z N)) by ring.
      lra. }
    assert (U' : (inject_Z n - t - (1 # 2) - 164 * d) * inject_Z N
                 == inject_Z n * inject_Z N - t * inject_Z N
                    - (1 # 2) * inject_Z N - 164 * (d * inject_Z N)) by ring.
    assert (L' : (t - inject_Z n - (1 # 2) - 164 * d) * inject_Z N
                 == t * inject_Z N - inject_Z n * inject_Z N
                    - (1 # 2) * inject_Z N - 164 * (d * inject_Z N)) by ring.
    rewrite U' in U. rewrite L' in L. rewrite Ht in U, L.
    assert (Up : inject_Z (2 * (n * N - 100 * c)) < inject_Z (N + 1)).
    { rewrite inject_Z_plus, inject_Z_mult. unfold Zminus.
      rewrite inject_Z_plus, inject_Z_opp, !inject_Z_mult.
      change (inject_Z 2) with 2. change (inject_Z 100) with 100.
      change (inject_Z 1) with 1. clearbody t d q. lra. }
    assert (Lo : inject_Z (2 * (100 * c - n * N)) < inject_Z (N + 1)).
    { rewrite inject_Z_plus, inject_Z_mult. unfold Zminus.
      rewrite inject_Z_plus, inject_Z_opp, !inject_Z_mult.
      change (inject_Z 2) with 2. change (inject_Z 100) with 100.
      change (inject_Z 1) with 1. clearbody t d q. lra. }
    rewrite <- Zlt_Qlt in Up, Lo. lia.
Qed.

(** On every count out of up to 64 records the rounding above computes
    what the Standard Library's [SFdiv] and [SFmul] compute. *)
Example RN_agrees_with_SpecFloat : Binary64.agree_upto 64 = true.
Proof. vm_compute. reflexivity. Qed.

End FloatFacts.

(** ** The loops of the analyzer *)

Section AnalyzerFacts.
Import Py Float Analyzer Spec.

(** A loop that stores one entry per item of a dict builds the dict of
    those entries. *)
Lemma fold_insert_lookup {A B} (g : string → A → B) (m : gmap string A) k :
  map_fold (λ key value (acc : gmap string B), <[key := g key value]> acc)
           ∅ m !! k
  = g k <$> m !! k.
Proof.
  revert k.
  apply (map_fold_weak_ind
           (λ (r : gmap string B) (m : gmap string A),
              ∀ k, r !! k = g k <$> m !! k)).
  - intros k. by rewrite !lookup_empty.
  - intros i x m' r Hi IH k. destruct (decide (i = k)) as [->|Hne].
    + by rewrite !lookup_insert_eq.
    + rewrite !lookup_insert_ne by done. apply IH.
Qed.

Lemma infer_schema_lookup first rest k :
  _infer_schema (first :: rest) !! k
  = schema_entry (first :: rest) k <$> first !! k.
Proof. apply fold_insert_lookup. Qed.

Lemma analyze_cardinality_lookup first rest k :
  _analyze_cardinality (first :: rest) !! k
  = (λ _, cardinality_entry (first :: rest) k) <$> first !! k.
Proof.
  unfold _analyze_cardinality.
  apply (fold_insert_lookup (λ key _, cardinality_entry (first :: rest) key)).
Qed.

Lemma contains_spec k (r : gmap string value) :
  contains k r = true ↔ is_Some (r !! k).
Proof.
  unfold contains. destruct (r !! k); split; intros H; done.
Qed.

(** The list comprehension's filter selects the records that contain [k]. *)
Lemma filter_contains k records :
  List.filter (contains k) records = records_with k records.
Proof.
  unfold records_with. induction records as [|r records IH]; [done|].
  simpl. rewrite filter_cons. destruct (contains k r) eqn:Hc.
  - apply contains_spec in Hc. rewrite decide_True by done. by rewrite IH.
  - rewrite decide_False; [done|]. intros Hs. apply contains_spec in Hs. congruence.
Qed.

(** [[r.get(k, d) for r in records if k in r]] are the values of [k]. *)
Lemma comprehension_values k d records :
  map (λ r, get r k d) (List.filter (contains k) records) = values_of k records.
Proof.
  unfold values_of. induction records as [|r records IH]; [done|].
  cbn [List.filter omap list_omap]. unfold contains at 1.
  destruct (r !! k) eqn:Hr.
  - cbn [map]. unfold get at 1. rewrite Hr. by rewrite IH.
  - apply IH.
Qed.

Lemma sum_foldl_shift (l : list Z) (a : Z) : foldl Z.add a l = (a + sum l)%Z.
Proof.
  unfold sum. revert a. induction l as [|x l IH]; intros a; simpl.
  - lia.
  - rewrite IH, (IH (0 + x)%Z). lia.
Qed.

Lemma sum_cons x l : sum (x :: l) = (x + sum l)%Z.
Proof. unfold sum at 1. simpl. rewrite sum_foldl_shift. lia. Qed.

(** [sum(1 for ...)] counts. *)
Lemma sum_ones {A} (l : list A) : sum (map (λ _, 1%Z) l) = len l.
Proof.
  unfold len. induction l as [|x l IH]; [done|].
  cbn [map]. rewrite sum_cons, IH. simpl length. lia.
Qed.

End AnalyzerFacts.

(** * The claims *)

Section Claims.
Import Py Float Analyzer Spec.

(** The chain of [isinstance] tests, constructor by constructor.  A float
    passes none of the tests and falls through to its class name. *)
Lemma field_type_of_cases v :
  field_type_of v =
  match v with
  | VNone => "null"
  | VBool _ => "boolean"
  | VInt _ => "number"
  | VFloat _ => "float"
  | VStr _ => "string"
  | VList _ => "array"
  | VDict _ => "object"
  | VOther tyname _ _ => tyname
  end.
Proof. destruct v; reflexivity. Qed.

(** The type of a schema entry is fixed by the first record's value. *)
Lemma infer_schema_type first rest k v :
  first !! k = Some v →
  type <$> (_infer_schema (first :: rest) !! k) = Some (field_type_of v).
Proof.
  intros Hk. rewrite infer_schema_lookup, Hk. cbn [fmap option_fmap option_map].
  f_equal. unfold schema_entry. cbv zeta.
  destruct (String.eqb (field_type_of v) "string"); [|reflexivity].
  destruct (map _ _); reflexivity.
Qed.

(** C1, on the code: a first-record float value is not classified as
    ["number"].  [isinstance(value, int)] is false of a float, which falls
    through every test to the fallback [type(value).__name__], so the
    schema reports the type ["float"]. *)
Theorem C1_float_is_typed_float :
  type <$> (_infer_schema [ {[ "price" := VFloat "9.99" ]} ] !! "price")
  = Some "float".
Proof.
  apply (infer_schema_type {[ "price" := VFloat "9.99" ]} [] "price"
           (VFloat "9.99")).
  apply lookup_singleton_eq.
Qed.

(** C5: a first-record value [True] or [False] is typed ["boolean"], never
    ["number"], although [isinstance(value, int)] holds of it: the test for
    [bool] comes first. *)
Theorem C5_boolean_before_number records first rest k b :
  records = first :: rest →
  first !! k = Some (VBool b) →
  isinstance_int (VBool b) = true ∧
  type <$> (_infer_schema records !! k) = Some "boolean" ∧
  type <$> (_infer_schema records !! k) ≠ Some "number".
Proof.
  intros -> Hk. rewrite (infer_schema_type first rest k _ Hk).
  split; [reflexivity|]. split; [reflexivity|discriminate].
Qed.

Lemma C5_boolean_before_number_witness :
  let first : gmap string value := {[ "active" := VBool true ]} in
  ([first] = first :: []) ∧
  (first !! "active" = Some (VBool true)) ∧
  (isinstance_int (VBool true) = true ∧
   type <$> (_infer_schema [first] !! "active") = Some "boolean" ∧
   type <$> (_infer_schema [first] !! "active") ≠ Some "number").
Proof.
  intros first. split; [reflexivity|]. split; [reflexivity|].
  apply (C5_boolean_before_number [first] first [] "active" true); reflexivity.
Defined.

Lemma first_keys_lookup {B} (g : string → value → B) records k :
  k ∈ first_keys records ↔
  match records with
  | [] => False
  | first :: _ => is_Some (g k <$> first !! k)
  end.
Proof.
  destruct records as [|first rest]; simpl.
  - set_solver.
  - rewrite elem_of_dom, fmap_is_Some. done.
Qed.

(** C4: the schema and the cardinality mapping have exactly the keys of
    the first record (none for an empty list), so a field that only later
    records have appears in neither. *)
Theorem C4_keys_of_first_record (records : list (gmap string value)) :
  dom (_infer_schema records) = first_keys records ∧
  dom (_analyze_cardinality records) = first_keys records ∧
  ∀ k, k ∉ first_keys records →
       _infer_schema records !! k = None ∧
       _analyze_cardinality records !! k = None.
Proof.
  assert (Hs : dom (_infer_schema records) = first_keys records).
  { apply set_eq. intros k. rewrite elem_of_dom.
    destruct records as [|first rest]; simpl first_keys.
    - simpl. rewrite lookup_empty. split; [by intros [? ?]|set_solver].
    - rewrite infer_schema_lookup, fmap_is_Some, elem_of_dom. done. }
  assert (Hc : dom (_analyze_cardinality records) = first_keys records).
  { apply set_eq. intros k. rewrite elem_of_dom.
    destruct records as [|first rest]; simpl first_keys.
    - simpl. rewrite lookup_empty. split; [by intros [? ?]|set_solver].
    - rewrite analyze_cardinality_lookup, fmap_is_Some, elem_of_dom. done. }
  split; [exact Hs|]. split; [exact Hc|].
  intros k Hk. rewrite <- Hs in Hk at 1. split.
  - by apply not_elem_of_dom.
  - apply not_elem_of_dom. by rewrite Hc, <- Hs.
Qed.

Lemma C4_keys_of_first_record_witness :
  let records : list (gmap string value) :=
    [ {[ "id" := VInt 1 ]}; {[ "id" := VInt 2; "tag" := VStr "x" ]} ] in
  ("tag" ∉ first_keys records) ∧
  (_infer_schema records !! "tag" = None) ∧
  (_analyze_cardinality records !! "tag" = None).
Proof.
  intros records.
  assert (H : "tag" ∉ first_keys records).
  { simpl. rewrite dom_singleton_L. set_solver. }
  split; [exact H|].
  exact (proj2 (proj2 (C4_keys_of_first_record records)) "tag" H).
Defined.

(** The size of the set built from a list is its number of distinct
    elements. *)
Lemma size_list_to_set_distinct (l : list string) :
  Z.of_nat (size (list_to_set l : gset string)) = distinct_count l.
Proof.
  unfold distinct_count. f_equal.
  rewrite <- (size_list_to_set (C := gset string) (remove_dups l))
    by apply NoDup_remove_dups.
  f_equal. apply set_eq. intros x.
  by rewrite !elem_of_list_to_set, elem_of_remove_dups.
Qed.

Lemma cardinality_entry_spec records k :
  unique_values (cardinality_entry records k)
  = distinct_count (map py_str (values_of k records)) ∧
  cardinality_ratio (cardinality_entry records k)
  = py_truediv (unique_values (cardinality_entry records k)) (len records).
Proof.
  unfold cardinality_entry. cbv zeta. cbn [unique_values cardinality_ratio].
  rewrite comprehension_values, size_list_to_set_distinct. done.
Qed.

(** C2: [unique_values] is the number of distinct [str] forms of the values
    of [k] in the records that contain [k] (the int [1] and the string
    ["1"] have the same form), and [cardinality_ratio] is that number
    divided by the length of the whole record list. *)
Theorem C2_cardinality_of_field records first rest k :
  records = first :: rest →
  is_Some (first !! k) →
  py_str (VInt 1) = py_str (VStr "1") ∧
  ∃ entry,
    _analyze_cardinality records !! k = Some entry ∧
    unique_values entry = distinct_count (map py_str (values_of k records)) ∧
    cardinality_ratio entry = py_truediv (unique_values entry) (len records).
Proof.
  intros -> [v Hv]. split; [reflexivity|].
  exists (cardinality_entry (first :: rest) k).
  rewrite analyze_cardinality_lookup, Hv. split; [reflexivity|].
  apply cardinality_entry_spec.
Qed.

Lemma C2_cardinality_of_field_witness :
  let first : gmap string value := {[ "code" := VInt 1 ]} in
  let rest : list (gmap string value) :=
    [ {[ "code" := VStr "1" ]}; {[ "other" := VInt 7 ]} ] in
  (first :: rest = first :: rest) ∧
  is_Some (first !! "code") ∧
  (py_str (VInt 1) = py_str (VStr "1") ∧
   ∃ entry,
     _analyze_cardinality (first :: rest) !! "code" = Some entry ∧
     unique_values entry
     = distinct_count (map py_str (values_of "code" (first :: rest))) ∧
     cardinality_ratio entry
     = py_truediv (unique_values entry) (len (first :: rest))).
Proof.
  intros first rest.
  assert (H : is_Some (first !! "code")) by (exists (VInt 1); reflexivity).
  split; [reflexivity|]. split; [exact H|].
  exact (C2_cardinality_of_field (first :: rest) first rest "code" eq_refl H).
Defined.

Lemma length_remove_dups_le (l : list string) :
  (length (remove_dups l) ≤ length l)%nat.
Proof.
  induction l as [|x l IH]; simpl; [lia|].
  case_match; simpl; lia.
Qed.

Lemma length_values_of_le k records :
  (length (values_of k records) ≤ length records)%nat.
Proof.
  unfold values_of. induction records as [|r records IH]; [simpl; lia|].
  cbn [omap list_omap]. destruct (r !! k); cbn [length]; lia.
Qed.

(** A quotient of a positive count by a length that fits a machine word
    does not underflow. *)
Lemma py_truediv_pos (c N : Z) :
  (1 ≤ c)%Z → (0 < N ≤ sys_maxsize)%Z → (0 < py_truediv c N)%Q.
Proof.
  intros Hc [HN Hmax]. unfold py_truediv. apply RN_pos.
  assert (HqN : (0 < inject_Z N)%Q)
    by (change 0%Q with (inject_Z 0); rewrite <- Zlt_Qlt; lia).
  apply Qle_shift_div_l; [assumption|].
  apply Qle_trans with (pow2 emin * inject_Z (2 ^ 63))%Q.
  - apply Qmult_le_l; [apply pow2_pos|]. rewrite <- Zle_Qle.
    unfold sys_maxsize in Hmax. lia.
  - apply Qle_trans with 1%Q; [vm_compute; discriminate|].
    change 1%Q with (inject_Z 1). rewrite <- Zle_Qle. lia.
Qed.

(** C10: a field of the first record has at least one distinct value, and
    a ratio in (0, 1]: the field occurs in the first record, and there are
    no more distinct forms than records. *)
Theorem C10_cardinality_bounds records first rest k :
  records = first :: rest →
  is_Some (first !! k) →
  (len records ≤ sys_maxsize)%Z →
  ∃ entry,
    _analyze_cardinality records !! k = Some entry ∧
    (1 ≤ unique_values entry)%Z ∧
    (0 < cardinality_ratio entry)%Q ∧ (cardinality_ratio entry <= 1)%Q.
Proof.
  intros -> [v Hv] Hlen.
  exists (cardinality_entry (first :: rest) k).
  rewrite analyze_cardinality_lookup, Hv. split; [reflexivity|].
  destruct (cardinality_entry_spec (first :: rest) k) as [Hu Hr].
  rewrite Hr, Hu. clear Hu Hr.
  set (strs := map py_str (values_of k (first :: rest))).
  assert (Hlo : (1 ≤ distinct_count strs)%Z).
  { unfold distinct_count.
    assert (Hin : py_str v ∈ remove_dups strs).
    { apply elem_of_remove_dups. unfold strs, values_of. simpl. rewrite Hv.
      simpl. left. }
    destruct (remove_dups strs); [by apply elem_of_nil in Hin|]. simpl. lia. }
  assert (Hhi : (distinct_count strs ≤ len (first :: rest))%Z).
  { unfold distinct_count, len.
    pose proof (length_remove_dups_le strs).
    pose proof (length_values_of_le k (first :: rest)).
    unfold strs in *. rewrite length_map in *. lia. }
  assert (HN : (0 < len (first :: rest))%Z) by (unfold len; simpl; lia).
  split; [assumption|]. split.
  - apply py_truediv_pos; lia.
  - apply py_truediv_range; lia.
Qed.

Lemma C10_cardinality_bounds_witness :
  let first : gmap string value := {[ "code" := VInt 1 ]} in
  let rest : list (gmap string value) :=
    [ {[ "code" := VStr "1" ]}; {[ "other" := VInt 7 ]} ] in
  (first :: rest = first :: rest) ∧
  is_Some (first !! "code") ∧
  (len (first :: rest) ≤ sys_maxsize)%Z ∧
  (∃ entry,
     _analyze_cardinality (first :: rest) !! "code" = Some entry ∧
     (1 ≤ unique_values entry)%Z ∧
     (0 < cardinality_ratio entry)%Q ∧ (cardinality_ratio entry <= 1)%Q).
Proof.
  intros first rest.
  assert (H : is_Some (first !! "code")) by (exists (VInt 1); reflexivity).
  assert (Hlen : (len (first :: rest) ≤ sys_maxsize)%Z) by (vm_compute; discriminate).
  split; [reflexivity|]. split; [exact H|]. split; [exact Hlen|].
  exact (C10_cardinality_bounds (first :: rest) first rest "code" eq_refl H Hlen).
Defined.

(** The number of records that contain [k], as the schema loop counts it. *)
Lemma count_contains k records :
  sum (map (λ _, 1%Z) (List.filter (contains k) records))
  = len (records_with k records).
Proof. by rewrite sum_ones, filter_contains. Qed.

Lemma len_records_with_le k records :
  (len (records_with k records) ≤ len records)%Z.
Proof.
  unfold len, records_with.
  pose proof (length_filter (λ r : gmap string value, is_Some (r !! k)) records).
  lia.
Qed.

(** [presence] does not depend on the branch taken for strings. *)
Lemma schema_entry_presence records k v :
  presence (schema_entry records k v)
  = format_0f (float_mul_int
                 (py_truediv (len (records_with k records)) (len records)) 100)
    +:+ "%".
Proof.
  unfold schema_entry. cbv zeta. rewrite count_contains.
  destruct (String.eqb (field_type_of v) "string"); [|reflexivity].
  destruct (map _ _); reflexivity.
Qed.

Lemma format_0f_nonneg (x : float) :
  (0 <= x)%Q → format_0f x = pretty (round_half_even x).
Proof.
  intros Hx. unfold format_0f. apply Qle_bool_iff in Hx. by rewrite Hx.
Qed.

(** C3: [presence] is ["<n>%"] where [n], between 0 and 100, is the float
    [count / total * 100] rounded to the nearest integer; for up to [2^44]
    records [n] is an integer nearest to the exact [100 * count / total]
    (within one half of it). *)
Theorem C3_presence_percentage records first rest k :
  records = first :: rest →
  is_Some (first !! k) →
  ∃ entry n,
    _infer_schema records !! k = Some entry ∧
    presence entry = pretty n +:+ "%" ∧
    n = round_half_even
          (float_mul_int
             (py_truediv (len (records_with k records)) (len records)) 100) ∧
    (0 ≤ n ≤ 100)%Z ∧
    ((len records ≤ 2 ^ 44)%Z →
     (2 * Z.abs (n * len records - 100 * len (records_with k records))
      ≤ len records)%Z).
Proof.
  intros -> [v Hv].
  set (records := first :: rest).
  set (c := len (records_with k records)). set (N := len records).
  assert (Hc : (0 ≤ c ≤ N)%Z).
  { split; [unfold c, len; lia | apply len_records_with_le]. }
  assert (HN : (0 < N)%Z) by (unfold N, len, records; simpl; lia).
  destruct (percentage_rounded c N Hc HN) as [Hrange Hnear].
  destruct (percentage_range c N Hc HN) as [Hq0 _].
  exists (schema_entry records k v),
         (round_half_even (float_mul_int (py_truediv c N) 100)).
  split; [unfold records; by rewrite infer_schema_lookup, Hv|].
  split; [by rewrite schema_entry_presence, format_0f_nonneg|].
  split; [reflexivity|]. split; assumption.
Qed.

Lemma C3_presence_percentage_witness :
  let first : gmap string value := {[ "id" := VInt 1; "name" := VStr "ann" ]} in
  let rest : list (gmap string value) :=
    [ {[ "id" := VInt 2; "name" := VStr "bob" ]};
      {[ "id" := VInt 1; "name" := VStr "ann" ]};
      {[ "id" := VInt 3 ]} ] in
  let records := first :: rest in
  (records = first :: rest) ∧
  is_Some (first !! "name") ∧
  (len records ≤ 2 ^ 44)%Z ∧
  (∃ entry n,
     _infer_schema records !! "name" = Some entry ∧
     presence entry = pretty n +:+ "%" ∧
     n = round_half_even
           (float_mul_int
              (py_truediv (len (records_with "name" records)) (len records))
              100) ∧
     (0 ≤ n ≤ 100)%Z ∧
     (2 * Z.abs (n * len records - 100 * len (records_with "name" records))
      ≤ len records)%Z).
Proof.
  intros first rest records.
  assert (H : is_Some (first !! "name")) by (exists (VStr "ann"); reflexivity).
  assert (Hlen : (len records ≤ 2 ^ 44)%Z) by (vm_compute; discriminate).
  destruct (C3_presence_percentage records first rest "name" eq_refl H)
    as (entry & n & He & Hp & Hn & Hr & Hnear).
  split; [reflexivity|]. split; [exact H|]. split; [exact Hlen|].
  exists entry, n.
  split; [exact He|]. split; [exact Hp|]. split; [exact Hn|].
  split; [exact Hr|]. exact (Hnear Hlen).
Defined.

(** [max] returns the greatest element. *)
Lemma foldl_max_spec (l : list Z) (a : Z) :
  foldl Z.max a l ∈ a :: l ∧
  (a ≤ foldl Z.max a l)%Z ∧
  ∀ y, y ∈ l → (y ≤ foldl Z.max a l)%Z.
Proof.
  revert a. induction l as [|x l IH]; intros a; simpl.
  - split; [left|]. split; [lia|]. intros y Hy. by apply elem_of_nil in Hy.
  - destruct (IH (Z.max a x)) as (Hin & Hle & Hall). split; [|split].
    + apply elem_of_cons in Hin as [Heq|Hin].
      * rewrite Heq. destruct (Z.max_spec a x) as [[_ ->]|[_ ->]].
        -- right; left.
        -- left.
      * by do 2 right.
    + lia.
    + intros y Hy. apply elem_of_cons in Hy as [->|Hy]; [lia|by apply Hall].
Qed.

Lemma sum_foldr (l : list Z) : sum l = foldr Z.add 0%Z l.
Proof.
  induction l as [|x l IH]; [reflexivity|]. rewrite sum_cons, IH. reflexivity.
Qed.

(** The lengths the schema loop collects for [k]. *)
Lemma comprehension_lengths k records :
  map (λ r, py_len (py_str (get r k (VStr ""))))
      (List.filter (contains k) records)
  = map (λ v, py_len (py_str v)) (values_of k records).
Proof. by rewrite <- (comprehension_values k (VStr "")), map_map. Qed.

Lemma schema_entry_type records k v :
  type (schema_entry records k v) = field_type_of v.
Proof.
  unfold schema_entry. cbv zeta.
  destruct (String.eqb (field_type_of v) "string"); [|reflexivity].
  destruct (map _ _); reflexivity.
Qed.

Lemma filter_contains_none key (records : list (gmap string value)) :
  (∀ r, r ∈ records → r !! key = None) →
  List.filter (contains key) records = [].
Proof.
  induction records as [|r records IH]; intros H; [done|].
  cbn [List.filter]. unfold contains at 1. rewrite (H r) by left.
  apply IH. intros r' Hr'. apply H. by right.
Qed.

(** C6: for a field typed ["string"], [max_length] is the greatest and
    [avg_length] the mean of the lengths of the [str] forms of the values of
    [k] in the records that contain [k].  The loop body omits both keys
    when no record contains the key. *)
Theorem C6_string_lengths records first rest k entry :
  records = first :: rest →
  _infer_schema records !! k = Some entry →
  type entry = "string" →
  let lengths := map (λ v, py_len (py_str v)) (values_of k records) in
  (∃ m, max_length entry = Some m ∧ m ∈ lengths ∧
        ∀ l, l ∈ lengths → (l ≤ m)%Z) ∧
  avg_length entry
  = Some (py_truediv (foldr Z.add 0%Z lengths) (len lengths)) ∧
  ∀ key value,
    (∀ r, r ∈ records → r !! key = None) →
    max_length (schema_entry records key value) = None ∧
    avg_length (schema_entry records key value) = None.
Proof.
  intros -> Hentry Htype lengths. split; [|split].
  - rewrite infer_schema_lookup in Hentry.
    destruct (first !! k) as [v|] eqn:Hv; [|discriminate].
    injection Hentry as <-. rewrite schema_entry_type in Htype.
    unfold schema_entry. cbv zeta. rewrite Htype. cbn [String.eqb Ascii.eqb Bool.eqb].
    rewrite comprehension_lengths. fold lengths.
    destruct lengths as [|l0 ls] eqn:Hl.
    + exfalso. unfold lengths, values_of in Hl. simpl in Hl. rewrite Hv in Hl.
      discriminate.
    + cbn [max_length]. exists (max l0 ls). split; [reflexivity|].
      destruct (foldl_max_spec ls l0) as (Hin & Hle & Hall). split; [exact Hin|].
      intros l Hlin. apply elem_of_cons in Hlin as [->|Hlin];
        [exact Hle|by apply Hall].
  - rewrite infer_schema_lookup in Hentry.
    destruct (first !! k) as [v|] eqn:Hv; [|discriminate].
    injection Hentry as <-. rewrite schema_entry_type in Htype.
    unfold schema_entry. cbv zeta. rewrite Htype. cbn [String.eqb Ascii.eqb Bool.eqb].
    rewrite comprehension_lengths. fold lengths.
    destruct lengths as [|l0 ls] eqn:Hl.
    + exfalso. unfold lengths, values_of in Hl. simpl in Hl. rewrite Hv in Hl.
      discriminate.
    + cbn [avg_length]. by rewrite sum_foldr.
  - intros key value Hnone. unfold schema_entry. cbv zeta.
    rewrite (filter_contains_none key _ Hnone). cbn [map].
    by destruct (String.eqb (field_type_of value) "string").
Qed.

Lemma C6_string_lengths_witness :
  let first : gmap string value := {[ "id" := VInt 1; "name" := VStr "ann" ]} in
  let rest : list (gmap string value) :=
    [ {[ "id" := VInt 2; "name" := VInt 12345 ]}; {[ "id" := VInt 3 ]} ] in
  let records := first :: rest in
  let entry := schema_entry records "name" (VStr "ann") in
  let lengths := map (λ v, py_len (py_str v)) (values_of "name" records) in
  (records = first :: rest) ∧
  (_infer_schema records !! "name" = Some entry) ∧
  (type entry = "string") ∧
  (∀ r, r ∈ records → r !! "zip" = None) ∧
  ((∃ m, max_length entry = Some m ∧ m ∈ lengths ∧
         ∀ l, l ∈ lengths → (l ≤ m)%Z) ∧
   avg_length entry
   = Some (py_truediv (foldr Z.add 0%Z lengths) (len lengths)) ∧
   (max_length (schema_entry records "zip" (VStr "x")) = None ∧
    avg_length (schema_entry records "zip" (VStr "x")) = None)).
Proof.
  intros first rest records entry lengths.
  assert (He : _infer_schema records !! "name" = Some entry).
  { unfold records. rewrite infer_schema_lookup.
    unfold first. rewrite lookup_insert_ne by done.
    rewrite lookup_singleton_eq. reflexivity. }
  assert (Ht : type entry = "string").
  { unfold entry. rewrite schema_entry_type. reflexivity. }
  assert (Hz : ∀ r, r ∈ records → r !! "zip" = None).
  { apply Forall_forall. unfold records, rest, first. repeat constructor. }
  split; [reflexivity|]. split; [exact He|]. split; [exact Ht|].
  split; [exact Hz|].
  destruct (C6_string_lengths records first rest "name" entry eq_refl He Ht)
    as (Hmax & Havg & Hguard).
  split; [exact Hmax|]. split; [exact Havg|]. exact (Hguard "zip" (VStr "x") Hz).
Defined.

End Claims.

(** ** Loops that store one entry per element *)

Section InsertLoop.
Import Spec.
Context {K : Type} `{Countable K} {V A : Type}.
Variables (key : A → K) (val : A → V).

Lemma insert_loop_snoc m l a :
  insert_loop key val m (l ++ [a]) = <[key a := val a]> (insert_loop key val m l).
Proof. unfold insert_loop. by rewrite foldl_snoc. Qed.

Lemma insert_loop_app m l1 l2 :
  insert_loop key val m (l1 ++ l2) = insert_loop key val (insert_loop key val m l1) l2.
Proof. unfold insert_loop. by rewrite foldl_app. Qed.

(** Keys that the loop does not meet keep their entry. *)
Lemma insert_loop_lookup_notin m l j :
  (∀ a, a ∈ l → key a ≠ j) → insert_loop key val m l !! j = m !! j.
Proof.
  revert m. induction l as [|a l IH]; intros m Hl; [done|].
  cbn. fold (insert_loop key val (<[key a := val a]> m) l). rewrite IH.
  - apply lookup_insert_ne. apply Hl. left.
  - intros b Hb. apply Hl. by right.
Qed.

(** The last element with a key decides its entry. *)
Lemma insert_loop_lookup_last m pre a post :
  (∀ b, b ∈ post → key b ≠ key a) →
  insert_loop key val m (pre ++ a :: post) !! key a = Some (val a).
Proof.
  intros Hpost. rewrite insert_loop_app. cbn.
  fold (insert_loop key val (<[key a := val a]> (insert_loop key val m pre)) post).
  rewrite insert_loop_lookup_notin by done. apply lookup_insert_eq.
Qed.

(** The result depends on the initial map key by key. *)
Lemma insert_loop_lookup_frame m1 m2 l j :
  m1 !! j = m2 !! j → insert_loop key val m1 l !! j = insert_loop key val m2 l !! j.
Proof.
  revert m1 m2. induction l as [|a l IH]; intros m1 m2 Hm; [done|].
  cbn. apply IH. destruct (decide (key a = j)) as [->|Hne].
  - by rewrite !lookup_insert_eq.
  - by rewrite !lookup_insert_ne.
Qed.

(** An element followed by another with the same key leaves no trace. *)
Lemma insert_loop_overwritten m pre a1 mid a2 post :
  key a1 = key a2 →
  insert_loop key val m (pre ++ a1 :: mid ++ a2 :: post)
  = insert_loop key val m (pre ++ mid ++ a2 :: post).
Proof.
  intros Hk. rewrite !insert_loop_app. cbn.
  fold (insert_loop key val (<[key a1 := val a1]> (insert_loop key val m pre)) (mid ++ a2 :: post)).
  rewrite !insert_loop_app. cbn. f_equal.
  apply map_eq. intros j. destruct (decide (key a2 = j)) as [->|Hne].
  - by rewrite !lookup_insert_eq.
  - rewrite !lookup_insert_ne by done. apply insert_loop_lookup_frame.
    apply lookup_insert_ne. congruence.
Qed.

Lemma insert_loop_dom m l :
  dom (insert_loop key val m l) = dom m ∪ list_to_set (key <$> l).
Proof.
  revert m. induction l as [|a l IH]; intros m.
  - cbn. set_solver.
  - cbn. fold (insert_loop key val (<[key a := val a]> m) l).
    rewrite IH, dom_insert_L. set_solver.
Qed.

End InsertLoop.

(** ** The loops of [analyze] *)

Section AnalyzeFacts.
Import Py Float Analyzer Spec.

(** The inner loop fills the [stores] dict of the entry just stored. *)
Lemma analyze_stores_loop (k : string) (v : value)
    (m0 : gmap (option string) store_result)
    (result : gmap string db_result) (ss : list store) :
  foldl (λ (result : gmap string db_result) store,
           alter (λ entry,
                    {| version := version entry;
                       stores := <[store_name store := store_entry store]>
                                   (stores entry) |})
                 k result)
        (<[k := {| version := v; stores := m0 |}]> result) ss
  = <[k := {| version := v;
              stores := insert_loop store_name store_entry m0 ss |}]> result.
Proof.
  revert m0. induction ss as [|s ss IH]; intros m0; [done|].
  cbn. rewrite alter_insert_eq. cbn. apply IH.
Qed.

(** [analyze] stores the entry derived from each database under its key. *)
Lemma analyze_insert_loop (data : list database) :
  analyze data = insert_loop db_key db_entry ∅ data.
Proof.
  unfold analyze, insert_loop. generalize (∅ : gmap string db_result).
  induction data as [|db data IH]; intros result; [done|].
  cbn. rewrite analyze_stores_loop. apply IH.
Qed.

End AnalyzeFacts.

(** ** The claims about [analyze] *)

Section AnalyzeClaims.
Import Py Float Analyzer Spec.

(** The entry of a database that no later database overwrites, and in it
    the entry of a store that no later store overwrites. *)
Lemma analyze_lookup_store pre db post spre store spost :
  (∀ d, d ∈ post → db_key d ≠ db_key db) →
  stores_list db = (spre ++ store :: spost)%list →
  (∀ s, s ∈ spost → store_name s ≠ store_name store) →
  analyze (pre ++ db :: post)%list !! db_key db = Some (db_entry db) ∧
  stores (db_entry db) !! store_name store = Some (store_entry store).
Proof.
  intros Hpost Hstores Hspost. split.
  - rewrite analyze_insert_loop. by apply insert_loop_lookup_last.
  - unfold db_entry. cbn [stores]. rewrite Hstores.
    by apply insert_loop_lookup_last.
Qed.

(** C7: a store without records is reported with an empty schema, an empty
    cardinality mapping, and as [record_count] the declared count when there
    is one and 0 otherwise. *)
Theorem C7_store_without_records data pre db post spre store spost :
  data = (pre ++ db :: post)%list →
  (∀ d, d ∈ post → db_key d ≠ db_key db) →
  stores_list db = (spre ++ store :: spost)%list →
  (∀ s, s ∈ spost → store_name s ≠ store_name store) →
  default [] (store_records store) = [] →
  ∃ e out,
    analyze data !! db_key db = Some e ∧
    stores e !! store_name store = Some out ∧
    schema out = ∅ ∧
    cardinality out = ∅ ∧
    record_count out = match store_count store with
                       | Some count => count
                       | None => VInt 0
                       end.
Proof.
  intros -> Hpost Hstores Hspost Hrecords.
  destruct (analyze_lookup_store pre db post spre store spost Hpost Hstores Hspost)
    as [Hdb Hstore].
  exists (db_entry db), (store_entry store).
  split; [exact Hdb|]. split; [exact Hstore|].
  unfold store_entry. rewrite Hrecords. cbn.
  split; [reflexivity|]. split; [reflexivity|].
  by destruct (store_count store).
Qed.

Lemma C7_store_without_records_witness :
  let store := {| store_name := Some "drafts"; store_count := Some (VInt 12);
                  store_keyPath := Some (VStr "id"); store_indexes := None;
                  store_records := Some [] |} in
  let db := {| db_name := Some "mail"; db_version := Some (VInt 3);
               db_stores := Some [store] |} in
  ([db] = ([] ++ db :: [])%list) ∧
  (∀ d, d ∈ [] → db_key d ≠ db_key db) ∧
  (stores_list db = ([] ++ store :: [])%list) ∧
  (∀ s, s ∈ [] → store_name s ≠ store_name store) ∧
  (default [] (store_records store) = []) ∧
  (∃ e out,
     analyze [db] !! db_key db = Some e ∧
     stores e !! store_name store = Some out ∧
     schema out = ∅ ∧
     cardinality out = ∅ ∧
     record_count out = VInt 12).
Proof.
  intros store db.
  assert (H1 : ∀ d : database, d ∈ [] → db_key d ≠ db_key db)
    by (intros d Hd; by apply elem_of_nil in Hd).
  assert (H2 : ∀ s : Analyzer.store, s ∈ [] → store_name s ≠ store_name store)
    by (intros s Hs; by apply elem_of_nil in Hs).
  split; [reflexivity|]. split; [exact H1|]. split; [reflexivity|].
  split; [exact H2|]. split; [reflexivity|].
  exact (C7_store_without_records [db] [] db [] [] store [] eq_refl H1 eq_refl
           H2 eq_refl).
Defined.

(** C8: a database without a name is stored under ["unknown"]; a store
    without a name is stored under [None], with no default: the keys of the
    stores mapping are the names exactly as the stores give them. *)
Theorem C8_missing_names (data : list database) :
  dom (analyze data)
  = list_to_set ((λ db, default "unknown" (db_name db)) <$> data) ∧
  (∀ db, db ∈ data → db_name db = None →
         is_Some (analyze data !! "unknown")) ∧
  (∀ pre db post,
     data = (pre ++ db :: post)%list →
     (∀ d, d ∈ post → db_key d ≠ db_key db) →
     ∃ e, analyze data !! db_key db = Some e ∧
          dom (stores e) = list_to_set (store_name <$> stores_list db) ∧
          ∀ s, s ∈ stores_list db → store_name s = None →
               is_Some (stores e !! None)).
Proof.
  assert (Hdom : dom (analyze data)
                 = list_to_set ((λ db, default "unknown" (db_name db)) <$> data)).
  { rewrite analyze_insert_loop, insert_loop_dom, dom_empty_L.
    by rewrite (left_id_L ∅ (∪)). }
  split; [exact Hdom|]. split.
  - intros db Hdb Hname. apply elem_of_dom. rewrite Hdom.
    apply elem_of_list_to_set, list_elem_of_fmap. exists db.
    by rewrite Hname.
  - intros pre db post -> Hpost. exists (db_entry db).
    assert (Hd : dom (stores (db_entry db))
                 = list_to_set (store_name <$> stores_list db)).
    { unfold db_entry. cbn [stores].
      rewrite insert_loop_dom, dom_empty_L. by rewrite (left_id_L ∅ (∪)). }
    split; [|split].
    + rewrite analyze_insert_loop. by apply insert_loop_lookup_last.
    + exact Hd.
    + intros s Hs Hname. apply elem_of_dom. rewrite Hd.
      apply elem_of_list_to_set, list_elem_of_fmap. exists s. by rewrite Hname.
Qed.

Lemma C8_missing_names_witness :
  let store := {| store_name := None; store_count := None;
                  store_keyPath := None; store_indexes := None;
                  store_records := None |} in
  let db := {| db_name := None; db_version := None;
               db_stores := Some [store] |} in
  (db ∈ [db]) ∧ (db_name db = None) ∧
  ([db] = ([] ++ db :: [])%list) ∧
  (∀ d, d ∈ [] → db_key d ≠ db_key db) ∧
  (store ∈ stores_list db) ∧ (store_name store = None) ∧
  is_Some (analyze [db] !! "unknown") ∧
  (∃ e, analyze [db] !! "unknown" = Some e ∧
        dom (stores e) = list_to_set (store_name <$> stores_list db) ∧
        is_Some (stores e !! None)).
Proof.
  intros store db.
  assert (H0 : db ∈ [db]) by left.
  assert (H1 : ∀ d : database, d ∈ [] → db_key d ≠ db_key db)
    by (intros d Hd; by apply elem_of_nil in Hd).
  assert (H2 : store ∈ stores_list db) by left.
  destruct (C8_missing_names [db]) as (_ & Hdb & Hstores).
  split; [exact H0|]. split; [reflexivity|]. split; [reflexivity|].
  split; [exact H1|]. split; [exact H2|]. split; [reflexivity|].
  split; [exact (Hdb db H0 eq_refl)|].
  destruct (Hstores [] db [] eq_refl H1) as (e & He & Hd & Hnone).
  exists e. split; [exact He|]. split; [exact Hd|].
  exact (Hnone store H2 eq_refl).
Defined.

(** C9: of two databases with the same key, or two stores of a database
    with the same name, only the later one is reported: the result is the
    one obtained without the earlier duplicate, and the entry under the
    shared key is the one derived from the later duplicate when nothing
    after it has that key. *)
Theorem C9_later_duplicate_overwrites :
  (∀ pre d1 mid d2 post,
     db_key d1 = db_key d2 →
     analyze (pre ++ d1 :: mid ++ d2 :: post)%list
     = analyze (pre ++ mid ++ d2 :: post)%list ∧
     ((∀ d, d ∈ post → db_key d ≠ db_key d2) →
      analyze (pre ++ d1 :: mid ++ d2 :: post)%list !! db_key d2
      = Some (db_entry d2))) ∧
  (∀ name vers spre s1 smid s2 spost,
     store_name s1 = store_name s2 →
     let db := {| db_name := name; db_version := vers;
                  db_stores := Some (spre ++ s1 :: smid ++ s2 :: spost)%list |} in
     let db' := {| db_name := name; db_version := vers;
                   db_stores := Some (spre ++ smid ++ s2 :: spost)%list |} in
     (∀ pre post,
        analyze (pre ++ db :: post)%list = analyze (pre ++ db' :: post)%list) ∧
     ((∀ s, s ∈ spost → store_name s ≠ store_name s2) →
      stores (db_entry db) !! store_name s2 = Some (store_entry s2))).
Proof.
  split.
  - intros pre d1 mid d2 post Hk. split.
    + rewrite !analyze_insert_loop. by apply insert_loop_overwritten.
    + intros Hpost. rewrite analyze_insert_loop.
      replace (pre ++ d1 :: mid ++ d2 :: post)%list
        with ((pre ++ d1 :: mid) ++ d2 :: post)%list
        by (by rewrite <- app_assoc).
      by apply insert_loop_lookup_last.
  - intros name vers spre s1 smid s2 spost Hk db db'.
    assert (He : db_entry db = db_entry db').
    { unfold db_entry, db, db', stores_list. cbn [db_stores db_version default].
      f_equal. by apply insert_loop_overwritten. }
    split.
    + intros pre post. rewrite !analyze_insert_loop, !insert_loop_app. cbn.
      by rewrite He.
    + intros Hspost. unfold db_entry, db, stores_list.
      cbn [stores db_stores default].
      replace (spre ++ s1 :: smid ++ s2 :: spost)%list
        with ((spre ++ s1 :: smid) ++ s2 :: spost)%list
        by (by rewrite <- app_assoc).
      by apply insert_loop_lookup_last.
Qed.

Lemma C9_later_duplicate_overwrites_witness :
  let s1 := {| store_name := Some "kv"; store_count := Some (VInt 1);
               store_keyPath := None; store_indexes := None;
               store_records := None |} in
  let s2 := {| store_name := Some "kv"; store_count := Some (VInt 2);
               store_keyPath := None; store_indexes := None;
               store_records := None |} in
  let d1 := {| db_name := None; db_version := Some (VInt 1);
               db_stores := Some [s1] |} in
  let d2 := {| db_name := Some "unknown"; db_version := Some (VInt 2);
               db_stores := Some [s1; s2] |} in
  (db_key d1 = db_key d2) ∧
  (∀ d, d ∈ [] → db_key d ≠ db_key d2) ∧
  (store_name s1 = store_name s2) ∧
  (∀ s, s ∈ [] → store_name s ≠ store_name s2) ∧
  (analyze [d1; d2] = analyze [d2]) ∧
  (analyze [d1; d2] !! "unknown" = Some (db_entry d2)) ∧
  (stores (db_entry d2) !! Some "kv" = Some (store_entry s2)).
Proof.
  intros s1 s2 d1 d2.
  assert (H1 : ∀ d : database, d ∈ [] → db_key d ≠ db_key d2)
    by (intros d Hd; by apply elem_of_nil in Hd).
  assert (H2 : ∀ s : store, s ∈ [] → store_name s ≠ store_name s2)
    by (intros s Hs; by apply elem_of_nil in Hs).
  destruct C9_later_duplicate_overwrites as [Hdb Hst].
  destruct (Hdb [] d1 [] d2 [] eq_refl) as [Hsame Hlast].
  destruct (Hst (Some "unknown") (Some (VInt 2)) [] s1 [] s2 [] eq_refl)
    as [_ Hstore].
  split; [reflexivity|]. split; [exact H1|]. split; [reflexivity|].
  split; [exact H2|]. split; [exact Hsame|]. split; [exact (Hlast H1)|].
  exact (Hstore H2).
Defined.

End AnalyzeClaims.

(** ** Worked examples *)

Section Examples.
Import Py Float Analyzer Spec Samples.

(** The schema of the field ["name"] of the four sample records. *)
Example scenario_schema_name :
  _infer_schema scenario !! "name"
  = Some {| type := "string"; presence := "75%";
            max_length := Some 3; avg_length := Some 3%Q |}.
Proof. vm_compute. reflexivity. Qed.

(** Their cardinalities: two names among three records that have one, three
    ids among four, both divided by the four records. *)
Example scenario_cardinality :
  _analyze_cardinality scenario !! "name"
  = Some {| unique_values := 2; cardinality_ratio := (1 # 2)%Q |} ∧
  _analyze_cardinality scenario !! "id"
  = Some {| unique_values := 3; cardinality_ratio := (3 # 4)%Q |}.
Proof. vm_compute. split; reflexivity. Qed.

(** When the exact percentage is halfway between two integers the float
    decides: [23 / 40 * 100] is the double just below 57.5 and prints as
    57, one of the two nearest integers. *)
Example halfway_presence :
  presence <$> (_infer_schema halfway !! "k") = Some "57%" ∧
  (2 * (100 * len (records_with "k" halfway)) = (57 + 58) * len halfway)%Z.
Proof. vm_compute. split; reflexivity. Qed.

(** The int [1] and the string ["1"] are one distinct value. *)
Example int_and_string_one_value :
  _analyze_cardinality
    [ ({[ "code" := VInt 1 ]} : gmap string value); {[ "code" := VStr "1" ]} ]
    !! "code"
  = Some {| unique_values := 1; cardinality_ratio := (1 # 2)%Q |}.
Proof. vm_compute. reflexivity. Qed.

(** [str] of nested values, as [set(str(v) ...)] sees them. *)
Example py_str_nested :
  py_str (VList [VInt 1; VStr "it's"; VNone; VBool true;
                 VDict [("a", VInt (-2))]])
  = "[1, " +:+ String dquote ("it's" +:+ String dquote
        ", None, True, {'a': -2}]").
Proof. vm_compute. reflexivity. Qed.

End Examples.

(** * Further properties *)

(** ** What [analyze] returns, key by key *)

Section InsertLoopLast.
Import Spec.
Context {K : Type} `{Countable K} {V A : Type}.
Variables (key : A → K) (val : A → V).

(** After the loop a key holds the entry of the last element with that
    key, and its initial entry when no element has it. *)
Lemma insert_loop_lookup (m : gmap K V) (l : list A) (k : K) :
  insert_loop key val m l !! k
  = match last (filter (λ a, key a = k) l) with
    | Some a => Some (val a)
    | None => m !! k
    end.
Proof.
  induction l as [|a l IH] using rev_ind; [done|].
  rewrite insert_loop_snoc, filter_app, filter_cons, filter_nil.
  destruct (decide (key a = k)) as [<-|Hne].
  - by rewrite last_snoc, lookup_insert_eq.
  - by rewrite app_nil_r, lookup_insert_ne.
Qed.

(** The loop stores at most one entry per element, and exactly one when
    the keys are pairwise distinct. *)
Lemma insert_loop_size (l : list A) :
  (size (insert_loop key val ∅ l) ≤ length l)%nat ∧
  (NoDup (key <$> l) → size (insert_loop key val ∅ l) = length l).
Proof.
  assert (Hd : dom (insert_loop key val ∅ l) = list_to_set (key <$> l)).
  { rewrite insert_loop_dom, dom_empty_L. by rewrite (left_id_L ∅ (∪)). }
  rewrite <- (size_dom (D := gset K)), Hd. split.
  - rewrite <- (length_fmap key l). generalize (key <$> l). clear.
    intros ks. induction ks as [|x ks IH]; [done|].
    rewrite list_to_set_cons. cbn [length].
    pose proof (size_union_alt {[x]} (list_to_set ks : gset K)) as Hu.
    pose proof (subseteq_size (list_to_set ks ∖ {[x]}) (list_to_set ks : gset K)) as Hs.
    rewrite Hu, size_singleton. 
    assert (Hsub : list_to_set ks ∖ {[x]} ⊆ (list_to_set ks : gset K))
      by set_solver.
    specialize (Hs Hsub). lia.
  - intros Hnd. rewrite size_list_to_set by done. apply length_fmap.
Qed.

End InsertLoopLast.

Section AnalyzeLast.
Import Py Float Analyzer Spec.

(** X1: the entry of a key in the result of [analyze] is the one derived
    from the last database stored under that key (its name, ["unknown"]
    without one); a key that no database has is absent. *)
Theorem analyze_lookup_last_database (data : list database) (k : string) :
  analyze data !! k
  = db_entry <$> last (filter (λ db, default "unknown" (db_name db) = k) data).
Proof.
  rewrite analyze_insert_loop, insert_loop_lookup, lookup_empty.
  unfold db_key. by destruct (last _).
Qed.

(** X2: in the entry of a database, a store name (or [None]) holds the
    analysis of the last store of that database with that name, and is absent
    when the database has no such store: stores of other databases never show
    up in it. *)
Theorem analyze_lookup_last_store (data : list database) (k : string)
    (e : db_result) :
  analyze data !! k = Some e →
  ∃ db, last (filter (λ db, default "unknown" (db_name db) = k) data) = Some db ∧
        version e = default VNone (db_version db) ∧
        ∀ n, stores e !! n
             = store_entry
                 <$> last (filter (λ s, store_name s = n)
                                  (default [] (db_stores db))).
Proof.
  rewrite analyze_lookup_last_database.
  destruct (last _) as [db|]; [|discriminate].
  intros [= <-]. exists db. split; [reflexivity|]. split; [reflexivity|].
  intros n. unfold db_entry. cbn [stores].
  rewrite insert_loop_lookup, lookup_empty. unfold stores_list.
  by destruct (last _).
Qed.

Lemma analyze_lookup_last_store_witness :
  let s1 := {| store_name := Some "kv"; store_count := Some (VInt 1);
               store_keyPath := None; store_indexes := None;
               store_records := None |} in
  let s2 := {| store_name := Some "kv"; store_count := Some (VInt 2);
               store_keyPath := None; store_indexes := None;
               store_records := None |} in
  let d1 := {| db_name := None; db_version := Some (VInt 1);
               db_stores := Some [s1] |} in
  let d2 := {| db_name := Some "unknown"; db_version := Some (VInt 2);
               db_stores := Some [s1; s2] |} in
  (analyze [d1; d2] !! "unknown" = Some (db_entry d2)) ∧
  (∃ db, last (filter (λ db, default "unknown" (db_name db) = "unknown")
                      [d1; d2]) = Some db ∧
         version (db_entry d2) = default VNone (db_version db) ∧
         ∀ n, stores (db_entry d2) !! n
              = store_entry
                  <$> last (filter (λ s, store_name s = n)
                                   (default [] (db_stores db)))).
Proof.
  intros s1 s2 d1 d2.
  assert (He : analyze [d1; d2] !! "unknown" = Some (db_entry d2))
    by (by rewrite analyze_lookup_last_database).
  split; [exact He|].
  exact (analyze_lookup_last_store [d1; d2] "unknown" (db_entry d2) He).
Defined.

(** X3: the result has at most one entry per database of the snapshot, and
    exactly one when the keys of the databases are pairwise distinct: a
    database is lost only to a later one with the same key. *)
Theorem analyze_size (data : list database) :
  (size (analyze data) ≤ length data)%nat ∧
  (NoDup ((λ db, default "unknown" (db_name db)) <$> data) →
   size (analyze data) = length data).
Proof. rewrite analyze_insert_loop. apply insert_loop_size. Qed.

Lemma analyze_size_witness :
  let d1 := {| db_name := None; db_version := None; db_stores := None |} in
  let d2 := {| db_name := Some "mail"; db_version := None; db_stores := None |} in
  NoDup ((λ db, default "unknown" (db_name db)) <$> [d1; d2]) ∧
  size (analyze [d1; d2]) = length [d1; d2].
Proof.
  intros d1 d2.
  assert (Hnd : NoDup ((λ db, default "unknown" (db_name db)) <$> [d1; d2])).
  { cbn. apply NoDup_cons. split; [|apply NoDup_singleton].
    intros Hin. apply list_elem_of_singleton in Hin. discriminate. }
  split; [exact Hnd|]. exact (proj2 (analyze_size [d1; d2]) Hnd).
Defined.

(** X4: the result is empty exactly when there is no database: a snapshot
    without the key ['indexedDB'], or with an empty list under it, gives
    [{}]; every database leaves an entry. *)
Theorem analyze_empty_iff (indexedDB : option (list database)) :
  analyze (init indexedDB) = ∅ ↔ indexedDB = None ∨ indexedDB = Some [].
Proof.
  destruct indexedDB as [[|db data]|].
  - split; [by right|done].
  - change (init (Some (db :: data))) with (db :: data).
    split; [|intros [?|?]; discriminate].
    intros He. exfalso.
    assert (Hl : analyze (db :: data) !! default "unknown" (db_name db) = None)
      by (by rewrite He, lookup_empty).
    rewrite analyze_lookup_last_database, filter_cons_True in Hl by done.
    destruct (last_is_Some (db :: filter (λ d, default "unknown" (db_name d)
                                           = default "unknown" (db_name db)) data))
      as [_ Hsome].
    destruct Hsome as [x Hx]; [done|]. by rewrite Hx in Hl.
  - split; [by left|done].
Qed.

Lemma analyze_empty_iff_witness :
  let db := {| db_name := None; db_version := None; db_stores := None |} in
  (analyze (init None) = ∅) ∧ (analyze (init (Some [])) = ∅) ∧
  (analyze (init (Some [db])) ≠ ∅).
Proof.
  intros db. split; [|split].
  - apply (proj2 (analyze_empty_iff None)). by left.
  - apply (proj2 (analyze_empty_iff (Some []))). by right.
  - intros He. apply (proj1 (analyze_empty_iff (Some [db]))) in He.
    destruct He as [He|He]; discriminate.
Defined.

End AnalyzeLast.

(** ** More about rounding *)

Section FloatMore.
Import Float.
Local Open Scope Q_scope.

(** A rounding is a reduced fraction. *)
Lemma RN_reduced x : Qred (RN x) = RN x.
Proof.
  unfold RN. destruct (Qeq_bool x 0); [reflexivity|]. apply Qred_complete, Qred_correct.
Qed.

(** Integers below [2^53] round to themselves. *)
Lemma RN_int x (n : Z) :
  x == inject_Z n -> (0 < n < 2 ^ 53)%Z -> RN x = inject_Z n.
Proof.
  intros Hx Hn.
  assert (Hpos : 0 < inject_Z n)
    by (change 0 with (inject_Z 0); rewrite <- Zlt_Qlt; lia).
  assert (Hx0 : ~ x == 0) by lra.
  assert (He : (ulp_exp x <= 0)%Z).
  { assert (Hlt : x < pow2 53).
    { rewrite pow2_Z by lia. rewrite Hx, <- Zlt_Qlt. lia. }
    pose proof (ulp_exp_below x 53 ltac:(lra) Hlt). unfold prec, emin in *. lia. }
  assert (Heq : RN x == inject_Z n).
  { apply Qle_antisym.
    - apply (RN_le_int x n Hx0 He). lra.
    - apply (RN_ge_int x n Hx0 He). lra. }
  rewrite <- RN_reduced. rewrite (Qred_complete _ _ Heq).
  apply Qcanon.Qred_iff. cbn. apply Z.gcd_1_r.
Qed.

(** [N / N] is [1.0]. *)
Lemma py_truediv_same (N : Z) : (0 < N)%Z -> py_truediv N N = 1.
Proof.
  intros HN. unfold py_truediv. apply (RN_int _ 1); [|lia].
  assert (0 < inject_Z N)
    by (change 0 with (inject_Z 0); rewrite <- Zlt_Qlt; lia).
  change (inject_Z 1) with 1. field. lra.
Qed.

(** A proper part of up to [2^53] items has a quotient below [1.0]. *)
Lemma py_truediv_lt_1 (c N : Z) :
  (0 < c < N)%Z -> (N <= 2 ^ 53)%Z -> py_truediv c N < 1.
Proof.
  intros Hc HN. unfold py_truediv.
  assert (HqN : 0 < inject_Z N)
    by (change 0 with (inject_Z 0); rewrite <- Zlt_Qlt; lia).
  assert (Hqc : 0 < inject_Z c)
    by (change 0 with (inject_Z 0); rewrite <- Zlt_Qlt; lia).
  set (x := inject_Z c / inject_Z N).
  assert (HxN : x * inject_Z N == inject_Z c) by (unfold x; field; lra).
  assert (Hx0 : 0 < x) by (apply Qlt_shift_div_l; lra).
  assert (Hx1 : x < 1).
  { apply Qlt_shift_div_r; [assumption|]. rewrite Qmult_1_l, <- Zlt_Qlt. lia. }
  assert (He : (ulp_exp x <= -53)%Z).
  { pose proof (ulp_exp_below x 0 Hx0 Hx1). unfold prec, emin in *. lia. }
  assert (He0 : (ulp_exp x <= 0)%Z) by lia.
  destruct (scale_to_grid _ He0) as [Hinv Hdiv].
  rewrite (RN_unfold x) by lra.
  pose proof (pow2_pos (ulp_exp x)) as Hp.
  set (K := (2 ^ (- ulp_exp x))%Z) in *.
  assert (HK : (2 ^ 53 <= K)%Z) by (apply Z.pow_le_mono_r; lia).
  assert (Hb : x / pow2 (ulp_exp x) <= inject_Z (K - 1)).
  { rewrite Hdiv. apply Qmult_le_r with (inject_Z N); [assumption|].
    assert (E : x * inject_Z K * inject_Z N == inject_Z (c * K))
      by (rewrite inject_Z_mult, <- HxN; ring).
    rewrite E, <- inject_Z_mult, <- Zle_Qle. nia. }
  apply round_half_even_le in Hb. rewrite Zle_Qle in Hb.
  set (m := inject_Z (round_half_even (x / pow2 (ulp_exp x)))) in *.
  set (e := pow2 (ulp_exp x)) in *.
  assert (Hm : m * e <= inject_Z (K - 1) * e) by (apply Qmult_le_compat_r; lra).
  assert (E2 : inject_Z (K - 1) * e == e * inject_Z K - e).
  { unfold Z.sub. rewrite inject_Z_plus, inject_Z_opp.
    change (inject_Z 1) with 1. ring. }
  rewrite E2, Hinv in Hm. clearbody m e. lra.
Qed.

End FloatMore.

(** ** More about the schema and the cardinalities *)

Section RecordsMore.
Import Py Float Analyzer Spec.

(** X5: the type of a field is read off the first record's value alone,
    whatever the later records hold: ["null"], ["boolean"], ["number"] for
    an int, ["string"], ["array"], ["object"], and the class name for any
    other value, which for a float is ["float"]. *)
Theorem infer_schema_type_by_kind first rest k v :
  first !! k = Some v →
  type <$> (_infer_schema (first :: rest) !! k)
  = Some match v with
         | VNone => "null"
         | VBool _ => "boolean"
         | VInt _ => "number"
         | VFloat _ => "float"
         | VStr _ => "string"
         | VList _ => "array"
         | VDict _ => "object"
         | VOther tyname _ _ => tyname
         end.
Proof.
  intros Hk. rewrite (infer_schema_type first rest k v Hk).
  by rewrite field_type_of_cases.
Qed.

Lemma infer_schema_type_by_kind_witness :
  let first : gmap string value := {[ "tags" := VList [VStr "a"] ]} in
  let rest : list (gmap string value) := [ {[ "tags" := VInt 7 ]} ] in
  (first !! "tags" = Some (VList [VStr "a"])) ∧
  (type <$> (_infer_schema (first :: rest) !! "tags") = Some "array").
Proof.
  intros first rest.
  assert (H : first !! "tags" = Some (VList [VStr "a"])) by reflexivity.
  split; [exact H|].
  exact (infer_schema_type_by_kind first rest "tags" _ H).
Defined.

Lemma values_of_first first rest k v :
  first !! k = Some v →
  values_of k (first :: rest) = v :: values_of k rest.
Proof. intros Hk. unfold values_of. cbn. by rewrite Hk. Qed.

(** X6: a schema entry carries [max_length] and [avg_length] exactly when
    its type is ["string"], and then both. *)
Theorem length_stats_iff_string records first rest k entry :
  records = first :: rest →
  _infer_schema records !! k = Some entry →
  (is_Some (max_length entry) ↔ type entry = "string") ∧
  (is_Some (avg_length entry) ↔ type entry = "string").
Proof.
  intros -> Hentry. rewrite infer_schema_lookup in Hentry.
  destruct (first !! k) as [v|] eqn:Hv; [|discriminate].
  injection Hentry as <-. rewrite schema_entry_type.
  unfold schema_entry. cbv zeta.
  destruct (String.eqb (field_type_of v) "string") eqn:Heq.
  - apply String.eqb_eq in Heq. rewrite comprehension_lengths.
    rewrite (values_of_first first rest k v Hv). cbn [map max_length avg_length].
    split; (split; [done|by eexists]).
  - apply String.eqb_neq in Heq. cbn [max_length avg_length].
    split; (split; [by intros [? ?]|done]).
Qed.

Lemma length_stats_iff_string_witness :
  let first : gmap string value := {[ "id" := VInt 1; "name" := VStr "ann" ]} in
  let rest : list (gmap string value) := [ {[ "id" := VStr "x" ]} ] in
  let entry := schema_entry (first :: rest) "id" (VInt 1) in
  (first :: rest = first :: rest) ∧
  (_infer_schema (first :: rest) !! "id" = Some entry) ∧
  ((is_Some (max_length entry) ↔ type entry = "string") ∧
   (is_Some (avg_length entry) ↔ type entry = "string")).
Proof.
  intros first rest entry.
  assert (He : _infer_schema (first :: rest) !! "id" = Some entry).
  { rewrite infer_schema_lookup. unfold first.
    rewrite lookup_insert_eq. reflexivity. }
  split; [reflexivity|]. split; [exact He|].
  exact (length_stats_iff_string (first :: rest) first rest "id" entry eq_refl He).
Defined.

Lemma records_with_all k (records : list (gmap string value)) :
  (∀ r, r ∈ records → is_Some (r !! k)) ↔
  length (records_with k records) = length records.
Proof.
  unfold records_with. split.
  - intros Hall. induction records as [|r records IH]; [done|].
    rewrite filter_cons_True by (apply Hall; left). cbn. f_equal.
    apply IH. intros r' Hr'. apply Hall. by right.
  - intros Hlen r Hr.
    destruct (decide (is_Some (r !! k))) as [|Hno]; [done|].
    pose proof (length_filter_lt (λ r : gmap string value, is_Some (r !! k))
                  records r Hr Hno). lia.
Qed.

(** X7: a field that every record has is reported present at ["100%"]. *)
Theorem presence_of_a_field_in_every_record records first rest k entry :
  records = first :: rest →
  _infer_schema records !! k = Some entry →
  (∀ r, r ∈ records → is_Some (r !! k)) →
  presence entry = "100%".
Proof.
  intros -> Hentry Hall. rewrite infer_schema_lookup in Hentry.
  destruct (first !! k) as [v|] eqn:Hv; [|discriminate].
  injection Hentry as <-. rewrite schema_entry_presence.
  apply records_with_all in Hall. unfold len. rewrite Hall.
  rewrite py_truediv_same by (cbn [length]; lia).
  vm_compute. reflexivity.
Qed.

Lemma presence_of_a_field_in_every_record_witness :
  let first : gmap string value := {[ "id" := VInt 1; "name" := VStr "ann" ]} in
  let rest : list (gmap string value) :=
    [ {[ "id" := VInt 2 ]}; {[ "id" := VInt 3 ]} ] in
  let entry := schema_entry (first :: rest) "id" (VInt 1) in
  (first :: rest = first :: rest) ∧
  (_infer_schema (first :: rest) !! "id" = Some entry) ∧
  (∀ r, r ∈ first :: rest → is_Some (r !! "id")) ∧
  (presence entry = "100%").
Proof.
  intros first rest entry.
  assert (He : _infer_schema (first :: rest) !! "id" = Some entry).
  { rewrite infer_schema_lookup. unfold first.
    rewrite lookup_insert_eq. reflexivity. }
  assert (Hall : ∀ r, r ∈ first :: rest → is_Some (r !! "id")).
  { apply Forall_forall. unfold first, rest.
    repeat constructor; by eexists. }
  split; [reflexivity|]. split; [exact He|]. split; [exact Hall|].
  exact (presence_of_a_field_in_every_record (first :: rest) first rest "id"
           entry eq_refl He Hall).
Defined.

Lemma length_values_of k records :
  length (values_of k records) = length (records_with k records).
Proof.
  rewrite <- (comprehension_values k VNone), filter_contains. apply length_map.
Qed.

Lemma distinct_count_all (l : list string) :
  length (remove_dups l) = length l ↔ NoDup l.
Proof.
  split.
  - induction l as [|x l IH]; [constructor|]. cbn.
    pose proof (length_remove_dups_le l). case_match.
    + intros Hlen. lia.
    + cbn. intros [= Hlen]. apply NoDup_cons. split; [done|by apply IH].
  - intros Hnd. induction Hnd as [|x l Hx Hnd IH]; [done|]. cbn.
    case_match; [done|]. cbn. by rewrite IH.
Qed.

(** X8: the distinct values of a field are at most as many as the records
    that have the field, which are at most all the records. *)
Theorem unique_values_at_most_records_with_field records first rest k entry :
  records = first :: rest →
  _analyze_cardinality records !! k = Some entry →
  (1 ≤ unique_values entry)%Z ∧
  (unique_values entry ≤ len (records_with k records))%Z ∧
  (len (records_with k records) ≤ len records)%Z.
Proof.
  intros -> Hentry. rewrite analyze_cardinality_lookup in Hentry.
  destruct (first !! k) as [v|] eqn:Hv; [|discriminate].
  injection Hentry as <-.
  destruct (cardinality_entry_spec (first :: rest) k) as [-> _].
  unfold distinct_count, len.
  pose proof (length_remove_dups_le (map py_str (values_of k (first :: rest)))) as H1.
  rewrite length_map, length_values_of in H1.
  pose proof (len_records_with_le k (first :: rest)) as H2. unfold len in H2.
  split; [|lia].
  rewrite (values_of_first first rest k v Hv). cbn [map].
  assert (Hin : py_str v ∈ remove_dups (py_str v :: map py_str (values_of k rest)))
    by (apply elem_of_remove_dups; left).
  revert Hin. generalize (remove_dups (py_str v :: map py_str (values_of k rest))).
  intros l Hin. destruct l; [by apply elem_of_nil in Hin|]. cbn [length]. lia.
Qed.

Lemma unique_values_at_most_records_with_field_witness :
  let first : gmap string value := {[ "code" := VInt 1 ]} in
  let rest : list (gmap string value) :=
    [ {[ "code" := VStr "1" ]}; {[ "other" := VInt 7 ]} ] in
  let entry := cardinality_entry (first :: rest) "code" in
  (first :: rest = first :: rest) ∧
  (_analyze_cardinality (first :: rest) !! "code" = Some entry) ∧
  ((1 ≤ unique_values entry)%Z ∧
   (unique_values entry ≤ len (records_with "code" (first :: rest)))%Z ∧
   (len (records_with "code" (first :: rest)) ≤ len (first :: rest))%Z).
Proof.
  intros first rest entry.
  assert (He : _analyze_cardinality (first :: rest) !! "code" = Some entry).
  { rewrite analyze_cardinality_lookup. unfold first.
    rewrite lookup_singleton_eq. reflexivity. }
  split; [reflexivity|]. split; [exact He|].
  exact (unique_values_at_most_records_with_field (first :: rest) first rest
           "code" entry eq_refl He).
Defined.

(** X9: for up to [2^53] records the ratio of a field is exactly [1.0] when
    and only when every record has the field and the [str] forms of its
    values are pairwise distinct. *)
Theorem cardinality_ratio_one_iff records first rest k entry :
  records = first :: rest →
  _analyze_cardinality records !! k = Some entry →
  (len records ≤ 2 ^ 53)%Z →
  cardinality_ratio entry = 1%Q ↔
  (∀ r, r ∈ records → is_Some (r !! k)) ∧
  NoDup (map py_str (values_of k records)).
Proof.
  intros Hrec Hentry Hlen.
  destruct (unique_values_at_most_records_with_field records first rest k entry
              Hrec Hentry) as (Hlo & Hmid & Hhi).
  subst records. rewrite analyze_cardinality_lookup in Hentry.
  destruct (first !! k) as [v|] eqn:Hv; [|discriminate].
  injection Hentry as <-.
  destruct (cardinality_entry_spec (first :: rest) k) as [Hu Hr].
  rewrite Hr. rewrite Hu in *. clear Hr Hu.
  set (records := first :: rest) in *.
  set (strs := map py_str (values_of k records)) in *.
  assert (HN : (0 < len records)%Z) by (unfold len, records; cbn; lia).
  assert (Hiff : distinct_count strs = len records ↔
                 (∀ r, r ∈ records → is_Some (r !! k)) ∧ NoDup strs).
  { rewrite records_with_all, <- distinct_count_all.
    unfold distinct_count, len in *.
    pose proof (length_remove_dups_le strs) as Hd.
    assert (Hs : length strs = length (records_with k records))
      by (unfold strs; by rewrite length_map, length_values_of).
    rewrite Hs in *. split; [lia|]. intros [H1 H2]. lia. }
  rewrite <- Hiff. split.
  - intros Hone. destruct (decide (distinct_count strs = len records)); [done|].
    exfalso.
    assert (Hlt : (py_truediv (distinct_count strs) (len records) < 1)%Q)
      by (apply py_truediv_lt_1; lia).
    rewrite Hone in Hlt. by apply Qlt_irrefl in Hlt.
  - intros ->. by apply py_truediv_same.
Qed.

Lemma cardinality_ratio_one_iff_witness :
  let first : gmap string value := {[ "id" := VInt 1 ]} in
  let rest : list (gmap string value) :=
    [ {[ "id" := VInt 2 ]}; {[ "id" := VInt 3 ]} ] in
  let entry := cardinality_entry (first :: rest) "id" in
  (first :: rest = first :: rest) ∧
  (_analyze_cardinality (first :: rest) !! "id" = Some entry) ∧
  (len (first :: rest) ≤ 2 ^ 53)%Z ∧
  ((∀ r, r ∈ first :: rest → is_Some (r !! "id")) ∧
   NoDup (map py_str (values_of "id" (first :: rest)))) ∧
  (cardinality_ratio entry = 1%Q).
Proof.
  intros first rest entry.
  assert (He : _analyze_cardinality (first :: rest) !! "id" = Some entry).
  { rewrite analyze_cardinality_lookup. unfold first.
    rewrite lookup_singleton_eq. reflexivity. }
  assert (Hlen : (len (first :: rest) ≤ 2 ^ 53)%Z) by (vm_compute; discriminate).
  assert (Hall : (∀ r, r ∈ first :: rest → is_Some (r !! "id")) ∧
                 NoDup (map py_str (values_of "id" (first :: rest)))).
  { split.
    - apply Forall_forall. unfold first, rest. repeat constructor; by eexists.
    - apply (bool_decide_unpack _). vm_compute. exact I. }
  split; [reflexivity|]. split; [exact He|]. split; [exact Hlen|].
  split; [exact Hall|].
  exact (proj2 (cardinality_ratio_one_iff (first :: rest) first rest "id" entry
                  eq_refl He Hlen) Hall).
Defined.

(** *** The order of the records *)

Lemma sum_perm (l l' : list Z) : l ≡ₚ l' → sum l = sum l'.
Proof.
  intros Hp. induction Hp as [|x l l' _ IH|x y l|l l' l'' _ IH1 _ IH2].
  - reflexivity.
  - by rewrite !sum_cons, IH.
  - rewrite !sum_cons. lia.
  - by rewrite IH1.
Qed.

Lemma max_perm (l0 l0' : Z) (ls ls' : list Z) :
  l0 :: ls ≡ₚ l0' :: ls' → max l0 ls = max l0' ls'.
Proof.
  intros Hp. unfold max.
  destruct (foldl_max_spec ls l0) as (Hin & Hle & Hall).
  destruct (foldl_max_spec ls' l0') as (Hin' & Hle' & Hall').
  assert (Hub : ∀ y, y ∈ l0 :: ls → (y ≤ foldl Z.max l0 ls)%Z).
  { intros y Hy. apply elem_of_cons in Hy as [->|Hy]; [done|by apply Hall]. }
  assert (Hub' : ∀ y, y ∈ l0' :: ls' → (y ≤ foldl Z.max l0' ls')%Z).
  { intros y Hy. apply elem_of_cons in Hy as [->|Hy]; [done|by apply Hall']. }
  rewrite Hp in Hin. rewrite <- Hp in Hin'.
  specialize (Hub _ Hin'). specialize (Hub' _ Hin). lia.
Qed.

Lemma map_perm {A B} (f : A → B) (l l' : list A) :
  l ≡ₚ l' → map f l ≡ₚ map f l'.
Proof. apply Permutation_map. Qed.

Lemma values_of_perm k (records records' : list (gmap string value)) :
  records ≡ₚ records' → values_of k records ≡ₚ values_of k records'.
Proof. intros Hp. unfold values_of. by rewrite Hp. Qed.

Lemma records_with_perm k (records records' : list (gmap string value)) :
  records ≡ₚ records' → records_with k records ≡ₚ records_with k records'.
Proof. intros Hp. unfold records_with. by rewrite Hp. Qed.

(** The entries depend on the records as a multiset only. *)
Lemma cardinality_entry_perm records records' k :
  records ≡ₚ records' →
  cardinality_entry records k = cardinality_entry records' k.
Proof.
  intros Hp. unfold cardinality_entry. cbv zeta.
  rewrite !comprehension_values.
  assert (Hs : (list_to_set (map py_str (values_of k records)) : gset string)
               = list_to_set (map py_str (values_of k records'))).
  { apply list_to_set_perm_L, map_perm, values_of_perm, Hp. }
  rewrite Hs. unfold len. by rewrite (Permutation_length Hp).
Qed.

Lemma schema_entry_perm records records' k v :
  records ≡ₚ records' →
  schema_entry records k v = schema_entry records' k v.
Proof.
  intros Hp. unfold schema_entry. cbv zeta.
  rewrite !count_contains, !comprehension_lengths.
  assert (Hc : len (records_with k records) = len (records_with k records')).
  { unfold len. by rewrite (Permutation_length (records_with_perm k _ _ Hp)). }
  assert (Hn : len records = len records').
  { unfold len. by rewrite (Permutation_length Hp). }
  rewrite Hc, Hn.
  destruct (String.eqb (field_type_of v) "string"); [|reflexivity].
  pose proof (map_perm (λ v, py_len (py_str v)) _ _ (values_of_perm k _ _ Hp))
    as Hl.
  revert Hl.
  generalize (map (λ v, py_len (py_str v)) (values_of k records)).
  generalize (map (λ v, py_len (py_str v)) (values_of k records')).
  intros l' l Hl. destruct l as [|l0 ls], l' as [|l0' ls'].
  - reflexivity.
  - by apply Permutation_nil_cons in Hl.
  - symmetry in Hl. by apply Permutation_nil_cons in Hl.
  - cbn [type presence]. f_equal.
    + f_equal. by apply max_perm.
    + f_equal. rewrite (sum_perm _ _ Hl). unfold len.
      by rewrite (Permutation_length Hl).
Qed.

(** X10: only the first record has a place of its own: the schema and the
    cardinalities do not change when the records after it are reordered. *)
Theorem analysis_ignores_order_of_later_records first rest rest' :
  rest ≡ₚ rest' →
  _infer_schema (first :: rest) = _infer_schema (first :: rest') ∧
  _analyze_cardinality (first :: rest) = _analyze_cardinality (first :: rest').
Proof.
  intros Hp.
  assert (Hp' : first :: rest ≡ₚ first :: rest') by (by constructor).
  split; apply map_eq; intros k.
  - rewrite !infer_schema_lookup. destruct (first !! k) as [v|]; [|done].
    cbn. f_equal. by apply schema_entry_perm.
  - rewrite !analyze_cardinality_lookup. destruct (first !! k) as [v|]; [|done].
    cbn. f_equal. by apply cardinality_entry_perm.
Qed.

Lemma analysis_ignores_order_of_later_records_witness :
  let first : gmap string value := {[ "id" := VInt 1; "name" := VStr "ann" ]} in
  let r2 : gmap string value := {[ "id" := VInt 2; "name" := VStr "robert" ]} in
  let r3 : gmap string value := {[ "id" := VInt 3 ]} in
  ([r2; r3] ≡ₚ [r3; r2]) ∧
  (_infer_schema [first; r2; r3] = _infer_schema [first; r3; r2]) ∧
  (_analyze_cardinality [first; r2; r3] = _analyze_cardinality [first; r3; r2]).
Proof.
  intros first r2 r3.
  assert (Hp : [r2; r3] ≡ₚ [r3; r2]) by apply perm_swap.
  split; [exact Hp|].
  exact (analysis_ignores_order_of_later_records first [r2; r3] [r3; r2] Hp).
Defined.

(** *** Records without the field *)

Lemma values_of_without k (pre post : list (gmap string value)) r :
  r !! k = None →
  values_of k (pre ++ r :: post) = values_of k (pre ++ post).
Proof.
  intros Hr. unfold values_of. rewrite !omap_app. cbn. by rewrite Hr.
Qed.

(** What is computed from the values of a field alone. *)
Lemma entries_from_values records records' k v :
  values_of k records = values_of k records' →
  unique_values (cardinality_entry records k)
  = unique_values (cardinality_entry records' k) ∧
  max_length (schema_entry records k v)
  = max_length (schema_entry records' k v) ∧
  avg_length (schema_entry records k v)
  = avg_length (schema_entry records' k v).
Proof.
  intros Hv.
  destruct (cardinality_entry_spec records k) as [-> _].
  destruct (cardinality_entry_spec records' k) as [-> _].
  unfold schema_entry. cbv zeta. rewrite !comprehension_lengths, Hv.
  split; [reflexivity|].
  destruct (String.eqb (field_type_of v) "string"); [|by split].
  by destruct (map _ _).
Qed.

(** X11: a record that lacks a field changes neither the number of
    distinct values of that field nor its length statistics; it only enters
    [presence] and the ratio, through the number of records. *)
Theorem record_without_field_is_not_counted first pre r post k :
  r !! k = None →
  unique_values <$> (_analyze_cardinality (first :: pre ++ r :: post) !! k)
  = unique_values <$> (_analyze_cardinality (first :: pre ++ post) !! k) ∧
  max_length <$> (_infer_schema (first :: pre ++ r :: post) !! k)
  = max_length <$> (_infer_schema (first :: pre ++ post) !! k) ∧
  avg_length <$> (_infer_schema (first :: pre ++ r :: post) !! k)
  = avg_length <$> (_infer_schema (first :: pre ++ post) !! k).
Proof.
  intros Hr.
  assert (Hv : values_of k (first :: pre ++ r :: post)
               = values_of k (first :: pre ++ post))
    by apply (values_of_without k (first :: pre) post r Hr).
  rewrite !analyze_cardinality_lookup, !infer_schema_lookup.
  destruct (first !! k) as [v|]; [|done].
  destruct (entries_from_values _ _ k v Hv) as (Hu & Hm & Ha).
  cbn [fmap option_fmap option_map]. by rewrite Hu, Hm, Ha.
Qed.

Lemma record_without_field_is_not_counted_witness :
  let first : gmap string value := {[ "name" := VStr "ann" ]} in
  let r : gmap string value := {[ "id" := VInt 3 ]} in
  let post : list (gmap string value) := [ {[ "name" := VStr "robert" ]} ] in
  (r !! "name" = None) ∧
  (unique_values <$> (_analyze_cardinality (first :: [] ++ r :: post) !! "name")
   = unique_values <$> (_analyze_cardinality (first :: [] ++ post) !! "name") ∧
   max_length <$> (_infer_schema (first :: [] ++ r :: post) !! "name")
   = max_length <$> (_infer_schema (first :: [] ++ post) !! "name") ∧
   avg_length <$> (_infer_schema (first :: [] ++ r :: post) !! "name")
   = avg_length <$> (_infer_schema (first :: [] ++ post) !! "name")).
Proof.
  intros first r post.
  assert (Hr : r !! "name" = None) by reflexivity.
  split; [exact Hr|].
  exact (record_without_field_is_not_counted first [] r post "name" Hr).
Defined.

(** *** Fields of one type *)

Lemma elem_of_map_inj {A B} (f : A → B) `{!Inj (=) (=) f} (x : A) (l : list A) :
  f x ∈ map f l ↔ x ∈ l.
Proof.
  induction l as [|y l IH]; cbn.
  - split; intros Hin; by apply elem_of_nil in Hin.
  - rewrite !elem_of_cons, IH.
    split; intros [Heq|Hin];
      [left; by apply (inj f) | by right | left; by rewrite Heq | by right].
Qed.

Lemma remove_dups_map_inj {A} `{EqDecision A} (f : A → string)
    `{!Inj (=) (=) f} (l : list A) :
  length (remove_dups (map f l)) = length (remove_dups l).
Proof.
  induction l as [|x l IH]; [done|]. cbn.
  destruct (decide_rel elem_of (f x) (map f l)) as [Hin|Hin],
           (decide_rel elem_of x l) as [Hin'|Hin']; cbn.
  - exact IH.
  - by apply elem_of_map_inj in Hin.
  - exfalso. apply Hin. by apply elem_of_map_inj.
  - by rewrite IH.
Qed.

Lemma VInt_str_inj : Inj (=) (=) (λ n : Z, py_str (VInt n)).
Proof. intros n n' Heq. cbn in Heq. by apply (inj pretty). Qed.

(** X12: comparing by [str] loses nothing within one type: when the values
    of a field are all ints, or all strings, [unique_values] is the number of
    distinct ints, or strings. *)
Theorem unique_values_of_ints_or_strings records first rest k entry :
  records = first :: rest →
  _analyze_cardinality records !! k = Some entry →
  (∀ ns : list Z, values_of k records = map VInt ns →
                  unique_values entry = Z.of_nat (length (remove_dups ns))) ∧
  (∀ ss : list string, values_of k records = map VStr ss →
                       unique_values entry = Z.of_nat (length (remove_dups ss))).
Proof.
  intros -> Hentry. rewrite analyze_cardinality_lookup in Hentry.
  destruct (first !! k) as [v|]; [|discriminate]. injection Hentry as <-.
  destruct (cardinality_entry_spec (first :: rest) k) as [-> _].
  unfold distinct_count. split.
  - intros ns ->. rewrite map_map. f_equal.
    apply (remove_dups_map_inj (λ n, py_str (VInt n)) (Inj0 := VInt_str_inj)).
  - intros ss ->. rewrite map_map. cbn [py_str]. by rewrite map_id.
Qed.

Lemma unique_values_of_ints_or_strings_witness :
  let first : gmap string value := {[ "id" := VInt 1 ]} in
  let rest : list (gmap string value) :=
    [ {[ "id" := VInt 2 ]}; {[ "id" := VInt 1 ]} ] in
  let entry := cardinality_entry (first :: rest) "id" in
  (first :: rest = first :: rest) ∧
  (_analyze_cardinality (first :: rest) !! "id" = Some entry) ∧
  (values_of "id" (first :: rest) = map VInt [1; 2; 1]) ∧
  (unique_values entry = Z.of_nat (length (remove_dups [1; 2; 1]))).
Proof.
  intros first rest entry.
  assert (He : _analyze_cardinality (first :: rest) !! "id" = Some entry).
  { rewrite analyze_cardinality_lookup. unfold first.
    rewrite lookup_singleton_eq. reflexivity. }
  assert (Hv : values_of "id" (first :: rest) = map VInt [1; 2; 1])
    by reflexivity.
  split; [reflexivity|]. split; [exact He|]. split; [exact Hv|].
  exact (proj1 (unique_values_of_ints_or_strings (first :: rest) first rest "id"
                  entry eq_refl He) [1; 2; 1] Hv).
Defined.

(** *** The mean and the maximum *)

Lemma sum_bounds (l : list Z) (m : Z) :
  (∀ y, y ∈ l → (0 ≤ y ≤ m)%Z) → (0 ≤ sum l ≤ len l * m)%Z.
Proof.
  unfold len. induction l as [|x l IH]; intros Hl.
  - cbn. lia.
  - rewrite sum_cons. cbn [length].
    assert (Hx : (0 ≤ x ≤ m)%Z) by (apply Hl; left).
    assert (Hr : (0 ≤ sum l ≤ Z.of_nat (length l) * m)%Z)
      by (apply IH; intros y Hy; apply Hl; by right).
    lia.
Qed.

(** The mean of lengths that stay below [2^53], as a float, lies between 0
    and the greatest of them. *)
Lemma mean_range (l0 : Z) (ls : list Z) :
  (∀ y, y ∈ l0 :: ls → (0 ≤ y)%Z) →
  (max l0 ls < 2 ^ 53)%Z →
  (0 <= py_truediv (sum (l0 :: ls)) (len (l0 :: ls)))%Q ∧
  (py_truediv (sum (l0 :: ls)) (len (l0 :: ls)) <= inject_Z (max l0 ls))%Q.
Proof.
  intros Hpos Hm.
  destruct (foldl_max_spec ls l0) as (_ & Hle & Hall). fold (max l0 ls) in *.
  assert (Hb : ∀ y, y ∈ l0 :: ls → (0 ≤ y ≤ max l0 ls)%Z).
  { intros y Hy. split; [by apply Hpos|].
    apply elem_of_cons in Hy as [->|Hy]; [done|by apply Hall]. }
  pose proof (sum_bounds (l0 :: ls) (max l0 ls) Hb) as [Hs0 Hs1].
  assert (HN : (0 < len (l0 :: ls))%Z) by (unfold len; cbn [length]; lia).
  set (S := sum (l0 :: ls)) in *. set (N := len (l0 :: ls)) in *.
  set (m := max l0 ls) in *.
  assert (HqN : (0 < inject_Z N)%Q)
    by (change 0%Q with (inject_Z 0); rewrite <- Zlt_Qlt; lia).
  unfold py_truediv. apply RN_range; [| |assumption].
  - apply Qle_shift_div_l; [assumption|]. rewrite Qmult_0_l.
    change 0%Q with (inject_Z 0). rewrite <- Zle_Qle. lia.
  - apply Qle_shift_div_r; [assumption|].
    rewrite <- inject_Z_mult, <- Zle_Qle. lia.
Qed.

(** X13: [avg_length] lies between 0 and [max_length], for strings shorter
    than [2^53] characters. *)
Theorem avg_length_at_most_max_length records first rest k entry m a :
  records = first :: rest →
  _infer_schema records !! k = Some entry →
  max_length entry = Some m →
  avg_length entry = Some a →
  (m < 2 ^ 53)%Z →
  (0 <= a)%Q ∧ (a <= inject_Z m)%Q.
Proof.
  intros -> Hentry Hmax Havg Hm. rewrite infer_schema_lookup in Hentry.
  destruct (first !! k) as [v|]; [|discriminate]. injection Hentry as <-.
  unfold schema_entry in Hmax, Havg. cbv zeta in Hmax, Havg.
  destruct (String.eqb (field_type_of v) "string"); [|discriminate].
  assert (Hpos : ∀ y, y ∈ map (λ r, py_len (py_str (get r k (VStr ""))))
                      (List.filter (contains k) (first :: rest)) → (0 ≤ y)%Z).
  { intros y Hy. apply list_elem_of_In, in_map_iff in Hy as (r & <- & _).
    unfold py_len. lia. }
  revert Hpos Hmax Havg.
  generalize (map (λ r, py_len (py_str (get r k (VStr ""))))
                  (List.filter (contains k) (first :: rest))).
  intros [|l0 ls] Hpos Hmax Havg; [discriminate|].
  cbn [max_length avg_length] in Hmax, Havg.
  injection Hmax as <-. injection Havg as <-. by apply mean_range.
Qed.

Lemma avg_length_at_most_max_length_witness :
  let first : gmap string value := {[ "name" := VStr "ann" ]} in
  let rest : list (gmap string value) := [ {[ "name" := VStr "robert" ]} ] in
  let entry := schema_entry (first :: rest) "name" (VStr "ann") in
  let a := py_truediv 9 2 in
  (first :: rest = first :: rest) ∧
  (_infer_schema (first :: rest) !! "name" = Some entry) ∧
  (max_length entry = Some 6%Z) ∧
  (avg_length entry = Some a) ∧
  (6 < 2 ^ 53)%Z ∧
  ((0 <= a)%Q ∧ (a <= inject_Z 6)%Q).
Proof.
  intros first rest entry a.
  assert (He : _infer_schema (first :: rest) !! "name" = Some entry).
  { rewrite infer_schema_lookup. unfold first.
    rewrite lookup_singleton_eq. reflexivity. }
  assert (Hmax : max_length entry = Some 6%Z) by (vm_compute; reflexivity).
  assert (Havg : avg_length entry = Some a) by (vm_compute; reflexivity).
  assert (Hm : (6 < 2 ^ 53)%Z) by (vm_compute; reflexivity).
  split; [reflexivity|]. split; [exact He|]. split; [exact Hmax|].
  split; [exact Havg|]. split; [exact Hm|].
  exact (avg_length_at_most_max_length (first :: rest) first rest "name" entry
           6 a eq_refl He Hmax Havg Hm).
Defined.

End RecordsMore.
